(** * Thrust detail utilities: integer math and allocator-decorated policies

    A shallow embedding of
    - [thrust/detail/integer_math.h]: [clz], [is_power_of_2], [log2],
      [log2_ri], [is_odd];
    - [thrust/detail/execute_with_allocator_fwd.h]: the policy decorator
      [execute_with_allocator] with [get_allocator], [after] and
      [rebind_after],
    together with the properties their specification states about them. *)

From Stdlib Require Import ZArith Lia Bool List.
From stdpp Require Import base option list gmap.

(** ** Part I: thrust/detail/integer_math.h *)

Module IntegerMath.
Local Open Scope Z_scope.

(** *** Integer types

    The functions are templates over [Integer].  A type is given by its
    width and its signedness; a value of the type is the mathematical
    integer it denotes (two's complement for the signed types). *)

Inductive width := W8 | W16 | W32 | W64.

Record Integer := MkInteger { int_width : width; int_signed : bool }.

Definition bits (T : Integer) : Z :=
  match int_width T with W8 => 8 | W16 => 16 | W32 => 32 | W64 => 64 end.

(** [std::numeric_limits<Integer>::digits]: the bits that are not the sign. *)
Definition digits (T : Integer) : Z :=
  if int_signed T then bits T - 1 else bits T.

Definition min_value (T : Integer) : Z :=
  if int_signed T then - 2 ^ (bits T - 1) else 0.

Definition max_value (T : Integer) : Z :=
  if int_signed T then 2 ^ (bits T - 1) - 1 else 2 ^ bits T - 1.

Definition in_range (T : Integer) (x : Z) : Prop :=
  min_value T <= x <= max_value T.

Definition in_rangeb (T : Integer) (x : Z) : bool :=
  (min_value T <=? x) && (x <=? max_value T).

Definition schar  : Integer := MkInteger W8 true.
Definition uchar  : Integer := MkInteger W8 false.
Definition short  : Integer := MkInteger W16 true.
Definition ushort : Integer := MkInteger W16 false.
Definition int    : Integer := MkInteger W32 true.
Definition uint   : Integer := MkInteger W32 false.
Definition llong  : Integer := MkInteger W64 true.
Definition ullong : Integer := MkInteger W64 false.

(** Conversion of a value to type [T]: reduction modulo [2 ^ bits T], read
    back in the range of [T]. *)
Definition convert (T : Integer) (x : Z) : Z :=
  if int_signed T
  then (x + 2 ^ (bits T - 1)) mod 2 ^ bits T - 2 ^ (bits T - 1)
  else x mod 2 ^ bits T.

(** The object representation of [x : T], as an unsigned number. *)
Definition bit_pattern (T : Integer) (x : Z) : Z := x mod 2 ^ bits T.

(** Integral promotion: types narrower than [int] are computed with as [int]. *)
Definition promote (T : Integer) : Integer :=
  if bits T <? bits int then int else T.

(** The usual arithmetic conversions for a binary operator whose operands
    have types [A] and [B]. *)
Definition common_type (A B : Integer) : Integer :=
  let A' := promote A in
  let B' := promote B in
  if Bool.eqb (int_signed A') (int_signed B')
  then (if bits A' <? bits B' then B' else A')
  else
    let U := if int_signed A' then B' else A' in
    let S := if int_signed A' then A' else B' in
    if bits S <=? bits U then U else S.

(** [a & b], [a - b] and [a + b] computed in type [C].  For a signed [C] the
    arithmetic wraps around; C++ leaves signed overflow undefined, and it can
    arise below only in [is_power_of_2] at the most negative value of [int]
    or of a 64-bit signed type. *)
Definition band (C : Integer) (a b : Z) : Z :=
  Z.land (convert C a) (convert C b).

Definition sub (C : Integer) (a b : Z) : Z :=
  convert C (convert C a - convert C b).

Definition add (C : Integer) (a b : Z) : Z :=
  convert C (convert C a + convert C b).

Section Shift.

(** The literal [1] in [clz] has type [int], so [1 << i] is a shift of an
    [int].  For [0 <= i < 31] it is [2 ^ i]; for [i = 31] it is the most
    negative [int].  For [i] at or above the width of [int] C++ leaves the
    result undefined and machines disagree on it (some mask the count, some
    yield [0]): the [int] obtained there is the parameter below. *)
Variable shl_out_of_range : Z -> Z.

Definition shl_one (i : Z) : Z :=
  if (0 <=? i) && (i <? bits int)
  then convert int (2 ^ i)
  else convert int (shl_out_of_range i).

(** The loop condition [(1 << i) & x] for [x : T], as a boolean. *)
Definition bit_test (T : Integer) (i x : Z) : bool :=
  negb (band (common_type int T) (shl_one i) x =? 0).

(** The loop of [clz] about to run with [i = n - 1]; [i] goes down to [0]. *)
Fixpoint clz_loop (T : Integer) (num_non_sign_bits x : Z) (n : nat) : Z :=
  match n with
  | O => convert T (add (common_type T int) num_non_sign_bits 1)
  | S n' =>
      let i := Z.of_nat n' in
      if bit_test T i x
      then convert T (sub (common_type T int) num_non_sign_bits i)
      else clz_loop T num_non_sign_bits x n'
  end.

Definition clz (T : Integer) (x : Z) : Z :=
  let num_non_sign_bits := convert T (digits T) in
  clz_loop T num_non_sign_bits x (Z.to_nat (convert int num_non_sign_bits + 1)).

Definition log2 (T : Integer) (x : Z) : Z :=
  convert T (sub (common_type int T) (digits T) (clz T x)).

End Shift.

Definition is_power_of_2 (T : Integer) (x : Z) : bool :=
  let C := common_type T int in
  0 =? band C x (sub C x 1).

Definition log2_ri (shl_out_of_range : Z -> Z) (T : Integer) (x : Z) : Z :=
  let result := log2 shl_out_of_range T x in
  if negb (is_power_of_2 T x)
  then convert T (add (common_type T int) result 1)
  else result.

Definition is_odd (T : Integer) (x : Z) : bool :=
  negb (band (common_type int T) 1 x =? 0).

(** Two behaviours of the out-of-range shift met in practice: the result is
    [0], or the count is taken modulo the width of [int]. *)
Definition shl_zero (i : Z) : Z := 0.
Definition shl_masked (i : Z) : Z := 2 ^ (i mod 32).

(** *** Set bits of a value *)

Fixpoint pos_popcount (p : positive) : nat :=
  match p with
  | xH => 1%nat
  | xO q => pos_popcount q
  | xI q => S (pos_popcount q)
  end.

Definition popcount (u : Z) : nat :=
  match u with Zpos p => pos_popcount p | _ => O end.

(** [x : T] has exactly one bit set in its representation. *)
Definition exactly_one_set_bit (T : Integer) (x : Z) : Prop :=
  popcount (bit_pattern T x) = 1%nat.

(** Position of the highest set bit of [x : T], counted from the least
    significant bit; [None] when no bit is set. *)
Definition highest_set_bit (T : Integer) (x : Z) : option Z :=
  if bit_pattern T x =? 0 then None else Some (Z.log2 (bit_pattern T x)).

End IntegerMath.

(** ** Part II: thrust/detail/execute_with_allocator_fwd.h *)

Module ExecutePolicy.

(** Policy objects live in a store; a location names one object. *)
Definition loc := positive.

Section Policy.

(** The base-class subobject [super_t = BaseSystem<...>], the allocator, the
    values accepted as dependencies and the handles they are captured as.
    The C++ parameter packs are heterogeneous; here one type holds every
    dependency value and a pack or tuple is a list.  Copying a value of one
    of these types gives an equal value, so a copy is the value itself. *)
Context {BaseSystem Allocator Dependency Handle : Type}.

(** The default constructor of [super_t], used where no [super] is given. *)
Variable default_super : BaseSystem.

(** The handle [capture_as_dependency] returns for one value; the function is
    declared in [thrust/detail/execute_with_dependencies.h]. *)
Variable capture : Dependency -> Handle.

Record execute_with_allocator := ExecuteWithAllocator {
  super : BaseSystem;
  alloc : Allocator
}.

(** Modelled from the spec: the struct
    [execute_with_allocator_and_dependencies] of
    [thrust/detail/execute_with_dependencies.h]: a policy that is a base
    policy and has an allocator and an ordered dependency list. *)
Record execute_with_allocator_and_dependencies := ExecuteWithAllocatorAndDependencies {
  super_d : BaseSystem;
  alloc_d : Allocator;
  dependencies : list Handle
}.

Inductive object :=
| ObjSuper (b : BaseSystem)
| ObjEwa (e : execute_with_allocator)
| ObjEwad (e : execute_with_allocator_and_dependencies).

(** The world a member function runs in: the objects alive, and the log of
    the values [capture_as_dependency] was called with, oldest first. *)
Record world := World {
  objects : gmap loc object;
  captured : list Dependency
}.

(** Computations: they read and extend the world, and have no result when a
    location does not hold an object of the expected class. *)
Definition M (A : Type) : Type := world -> option (A * world).

#[export] Instance M_ret : MRet M := fun A x w => Some (x, w).

#[export] Instance M_bind : MBind M := fun A B f m w =>
  match m w with
  | Some (x, w') => f x w'
  | None => None
  end.

Definition fail {A} : M A := fun _ => None.

Definition get_object (l : loc) : M object := fun w =>
  match objects w !! l with
  | Some o => Some (o, w)
  | None => None
  end.

(** A new object, at a location not in use. *)
Definition new_object (o : object) : M loc := fun w =>
  let l := fresh (dom (objects w)) in
  Some (l, World (<[l := o]> (objects w)) (captured w)).

Definition set_object (l : loc) (o : object) : M unit := fun w =>
  Some (tt, World (<[l := o]> (objects w)) (captured w)).

(** [super_t const& super]: the reference binds to a [super_t] object or to
    the base-class subobject of a decorator. *)
Definition get_super (l : loc) : M BaseSystem :=
  o ← get_object l;
  match o with
  | ObjSuper b => mret b
  | ObjEwa e => mret (super e)
  | ObjEwad _ => fail
  end.

Definition get_this (l : loc) : M execute_with_allocator :=
  o ← get_object l;
  match o with
  | ObjEwa e => mret e
  | _ => fail
  end.

(** [execute_with_allocator(super_t const& super, Allocator alloc_)] *)
Definition construct_from (super : loc) (alloc_ : Allocator) : M loc :=
  b ← get_super super;
  new_object (ObjEwa (ExecuteWithAllocator b alloc_)).

(** [execute_with_allocator(Allocator alloc_)] *)
Definition construct (alloc_ : Allocator) : M loc :=
  new_object (ObjEwa (ExecuteWithAllocator default_super alloc_)).

(** A reference to the member [alloc] of the decorator at a location. *)
Inductive allocator_ref := AllocOf (l : loc).

(** [get_allocator()]: [return alloc;] as an lvalue. *)
Definition get_allocator (this : loc) : M allocator_ref :=
  _ ← get_this this;
  mret (AllocOf this).

(** Reading and assigning through such a reference.  The allocator is held
    by value in each object; an [Allocator] that is itself a reference type
    would share one allocator between objects, which is not modelled. *)
Definition read_ref (r : allocator_ref) : M Allocator :=
  let 'AllocOf l := r in
  e ← get_this l;
  mret (alloc e).

Definition assign_ref (r : allocator_ref) (a : Allocator) : M unit :=
  let 'AllocOf l := r in
  e ← get_this l;
  set_object l (ObjEwa (ExecuteWithAllocator (super e) a)).

(** One call of [capture_as_dependency] on a single value. *)
Definition capture_as_dependency (d : Dependency) : M Handle := fun w =>
  Some (capture d, World (objects w) (captured w ++ [d])).

(** Modelled from the spec: the overload of [capture_as_dependency] for a
    [std::tuple] of [thrust/detail/execute_with_dependencies.h]: each element
    is captured, in order, into the same ordered sequence. *)
Definition capture_as_dependency_tuple (dependencies : list Dependency)
  : M (list Handle) :=
  mapM capture_as_dependency dependencies.

(** Modelled from the spec: the constructors of
    [execute_with_allocator_and_dependencies] that [after] calls, from an
    allocator and the captured handles (as a pack, or as one tuple); the
    base-class subobject is default-constructed. *)
Definition construct_with_dependencies (a : Allocator) (hs : list Handle)
  : M loc :=
  new_object (ObjEwad (ExecuteWithAllocatorAndDependencies default_super a hs)).

Definition construct_with_dependency_tuple (a : Allocator) (hs : list Handle)
  : M loc :=
  new_object (ObjEwad (ExecuteWithAllocatorAndDependencies default_super a hs)).

(** [after(Dependencies&&... dependencies) const]:
    [return {alloc, capture_as_dependency(THRUST_FWD(dependencies))...};] *)
Definition after (this : loc) (dependencies : list Dependency) : M loc :=
  e ← get_this this;
  hs ← mapM capture_as_dependency dependencies;
  construct_with_dependencies (alloc e) hs.

(** [after(std::tuple<Dependencies...>& dependencies) const]:
    [return {alloc, capture_as_dependency(dependencies)};]
    The overload for [std::tuple<Dependencies...>&&] has the same body, the
    tuple being moved. *)
Definition after_tuple (this : loc) (dependencies : list Dependency) : M loc :=
  e ← get_this this;
  hs ← capture_as_dependency_tuple dependencies;
  construct_with_dependency_tuple (alloc e) hs.

(** [rebind_after(Dependencies&&... dependencies) const] *)
Definition rebind_after (this : loc) (dependencies : list Dependency) : M loc :=
  e ← get_this this;
  hs ← mapM capture_as_dependency dependencies;
  construct_with_dependencies (alloc e) hs.

(** [rebind_after(std::tuple<Dependencies...>& dependencies) const] *)
Definition rebind_after_tuple (this : loc) (dependencies : list Dependency)
  : M loc :=
  e ← get_this this;
  hs ← capture_as_dependency_tuple dependencies;
  construct_with_dependency_tuple (alloc e) hs.

(** The location the next object is placed at. *)
Definition next_loc (w : world) : loc := fresh (dom (objects w)).

(** Every object of [w] is an object of [w'], with the same value. *)
Definition preserved (w w' : world) : Prop := objects w ⊆ objects w'.

(** The policy values a decorator can be constructed from. *)
Definition source_super (w : world) (p : loc) : option BaseSystem :=
  match objects w !! p with
  | Some (ObjSuper b) => Some b
  | Some (ObjEwa e) => Some (super e)
  | _ => None
  end.

(** The world [after] leaves behind when called on the decorator [e]. *)
Definition after_result (w : world) (e : execute_with_allocator)
    (deps : list Dependency) : world :=
  World (<[next_loc w :=
             ObjEwad (ExecuteWithAllocatorAndDependencies
                        default_super (alloc e) (capture <$> deps))]> (objects w))
        (captured w ++ deps).

(** The world after assigning [a] through the reference to the allocator of
    the decorator [e] at [d]. *)
Definition assigned (w : world) (d : loc) (e : execute_with_allocator)
    (a : Allocator) : world :=
  World (<[d := ObjEwa (ExecuteWithAllocator (super e) a)]> (objects w))
        (captured w).

End Policy.

(** *** An instance

    A world with a base policy at location 1 and, at location 2, a decorator
    holding allocator [7]; dependencies are numbers, captured as their
    successors. *)
Definition example_decorator : @execute_with_allocator unit nat :=
  ExecuteWithAllocator tt 7.

Definition example_world : @world unit nat nat nat :=
  World (<[2%positive := ObjEwa example_decorator]>
           {[1%positive := ObjSuper tt]}) [].

(** A world that holds a base policy at location 1 and nothing else. *)
Definition base_policy_world : @world unit nat nat nat :=
  World {[1%positive := ObjSuper tt]} [].

End ExecutePolicy.

(** ** Part III: properties of the integer utilities *)

Module IntegerMathFacts.
Import IntegerMath.
Local Open Scope Z_scope.

(** *** Facts about types and conversions *)

Ltac each_type T := destruct T as [[] []].

Lemma bits_pos T : 8 <= bits T <= 64.
Proof. each_type T; cbn; lia. Qed.

Lemma digits_bounds T : 7 <= digits T <= 64.
Proof. each_type T; cbn; lia. Qed.

Lemma convert_in_range T x : in_range T x -> convert T x = x.
Proof.
  unfold in_range, convert, min_value, max_value.
  pose proof (bits_pos T) as Hb.
  destruct (int_signed T); intros Hx.
  - replace (2 ^ bits T) with (2 * 2 ^ (bits T - 1)) in *.
    + rewrite Z.mod_small; lia.
    + rewrite <- Z.pow_succ_r by lia. f_equal. lia.
  - apply Z.mod_small. lia.
Qed.

Lemma in_range_common_l T x : in_range T x -> in_range (common_type int T) x.
Proof. each_type T; unfold in_range; cbn; lia. Qed.

Lemma in_range_common_r T x : in_range T x -> in_range (common_type T int) x.
Proof. each_type T; unfold in_range; cbn; lia. Qed.

Lemma in_range_small T x : 0 <= x <= 127 -> in_range T x.
Proof. each_type T; unfold in_range; cbn; lia. Qed.

Lemma convert_small T x : 0 <= x <= 127 -> convert T x = x.
Proof. intros. apply convert_in_range, in_range_small. lia. Qed.

Lemma convert_0 T : convert T 0 = 0.
Proof. apply convert_small. lia. Qed.

Lemma band_0_r C a : band C a 0 = 0.
Proof. unfold band. rewrite convert_0. apply Z.land_0_r. Qed.

Lemma band_0_l C b : band C 0 b = 0.
Proof. unfold band. rewrite convert_0. apply Z.land_0_l. Qed.

Lemma sub_small C a b : 0 <= b <= a -> a <= 127 -> sub C a b = a - b.
Proof.
  intros. unfold sub.
  rewrite (convert_small C a), (convert_small C b) by lia.
  apply convert_small. lia.
Qed.

Lemma add_small C a b : 0 <= a -> 0 <= b -> a + b <= 127 -> add C a b = a + b.
Proof.
  intros. unfold add.
  rewrite (convert_small C a), (convert_small C b) by lia.
  apply convert_small. lia.
Qed.

Lemma convert_range T y : in_range T (convert T y).
Proof.
  unfold in_range, convert, min_value, max_value.
  pose proof (bits_pos T) as Hb.
  assert (0 < 2 ^ bits T) as Hp by (apply Z.pow_pos_nonneg; lia).
  destruct (int_signed T).
  - assert (2 ^ bits T = 2 * 2 ^ (bits T - 1)) as He.
    { rewrite <- Z.pow_succ_r by lia. f_equal. lia. }
    pose proof (Z.mod_pos_bound (y + 2 ^ (bits T - 1)) (2 ^ bits T) Hp). lia.
  - pose proof (Z.mod_pos_bound y (2 ^ bits T) Hp). lia.
Qed.

Lemma bit_pattern_bounds T x : 0 <= bit_pattern T x < 2 ^ bits T.
Proof.
  unfold bit_pattern. pose proof (bits_pos T).
  apply Z.mod_pos_bound, Z.pow_pos_nonneg; lia.
Qed.

Lemma bit_pattern_nonneg T x : in_range T x -> 0 <= x -> bit_pattern T x = x.
Proof.
  unfold bit_pattern, in_range, max_value. pose proof (bits_pos T).
  intros Hx Hx0. apply Z.mod_small.
  destruct (int_signed T); [|lia].
  assert (2 ^ (bits T - 1) < 2 ^ bits T) by (apply Z.pow_lt_mono_r; lia). lia.
Qed.

Lemma bit_pattern_neg T x :
  in_range T x -> x < 0 ->
  bit_pattern T x = x + 2 ^ bits T /\ int_signed T = true /\
  2 ^ (bits T - 1) <= x + 2 ^ bits T.
Proof.
  unfold bit_pattern, in_range, min_value. pose proof (bits_pos T).
  intros Hx Hx0. destruct (int_signed T); [|lia].
  assert (2 ^ bits T = 2 * 2 ^ (bits T - 1)) as He.
  { rewrite <- Z.pow_succ_r by lia. f_equal. lia. }
  split; [|split; [reflexivity|lia]].
  symmetry. apply (Z.mod_unique_pos _ _ (-1)); lia.
Qed.

Lemma testbit_bit_pattern T x j :
  0 <= j < bits T -> Z.testbit (bit_pattern T x) j = Z.testbit x j.
Proof. intros. unfold bit_pattern. apply Z.mod_pow2_bits_low. lia. Qed.

(** *** Bitwise and against a mask *)

Lemma land_pow2_eqb i y :
  0 <= i -> (Z.land (2 ^ i) y =? 0) = negb (Z.testbit y i).
Proof.
  intros Hi.
  assert (Z.land (2 ^ i) y = if Z.testbit y i then 2 ^ i else 0) as ->.
  { apply Z.bits_inj'. intros n Hn. rewrite Z.land_spec, Z.pow2_bits_eqb by lia.
    destruct (Z.eqb_spec i n) as [->|Hne].
    - destruct (Z.testbit y n) eqn:E; [|now rewrite Z.bits_0].
      rewrite Z.pow2_bits_eqb, Z.eqb_refl by lia. reflexivity.
    - cbn. destruct (Z.testbit y i); [|now rewrite Z.bits_0].
      rewrite Z.pow2_bits_eqb by lia. symmetry. now apply Z.eqb_neq. }
  destruct (Z.testbit y i); cbn; [|reflexivity].
  apply Z.eqb_neq. assert (0 < 2 ^ i) by (apply Z.pow_pos_nonneg; lia). lia.
Qed.

(** In a type at least as wide as [int], and-ing an [int] mask with a value
    of the type is the bitwise and of the two numbers: a negative mask is
    sign-extended by the conversion. *)
Lemma band_land C m x :
  bits int <= bits C -> in_range int m -> in_range C x ->
  band C m x = Z.land m x.
Proof.
  intros Hw Hm Hx. unfold band. rewrite (convert_in_range C x Hx).
  destruct (int_signed C) eqn:Hs.
  - rewrite convert_in_range; [reflexivity|].
    revert Hw Hm. unfold in_range, min_value, max_value. rewrite Hs.
    destruct C as [[] sg]; cbn in *; subst sg; cbn; lia.
  - unfold convert. rewrite Hs.
    pose proof (bits_pos C).
    rewrite <- Z.land_ones, <- Z.land_assoc by lia.
    rewrite (Z.land_comm (Z.ones _)), Z.land_ones by lia.
    f_equal. apply Z.mod_small.
    revert Hx. unfold in_range, min_value, max_value. rewrite Hs. lia.
Qed.

Lemma testbit_sign m k :
  in_range int m -> 31 <= k -> Z.testbit m k = (m <? 0).
Proof.
  unfold in_range. cbn. intros Hm Hk.
  destruct (Z.ltb_spec m 0) as [Hneg|Hpos].
  - replace m with (- (- m)) by lia. rewrite Z.bits_opp by lia.
    destruct (Z.eq_dec (Z.pred (- m)) 0) as [->|Hne].
    + now rewrite Z.bits_0.
    + rewrite Z.bits_above_log2; [reflexivity|lia|].
      apply Z.log2_lt_pow2; [lia|].
      assert (2 ^ 31 <= 2 ^ k) by (apply Z.pow_le_mono_r; lia). lia.
  - destruct (Z.eq_dec m 0) as [->|Hne]; [apply Z.bits_0|].
    apply Z.bits_above_log2; [lia|].
    apply Z.log2_lt_pow2; [lia|].
    assert (2 ^ 31 <= 2 ^ k) by (apply Z.pow_le_mono_r; lia). lia.
Qed.

(** The mask [1 << 31]: it meets [x] exactly when [x] has a bit set at
    position 31 or above. *)
Lemma land_min_int_eqb x :
  (Z.land (- 2 ^ 31) x =? 0) = (0 <=? x) && (x <? 2 ^ 31).
Proof.
  destruct (Z.leb_spec 0 x) as [Hx0|Hx0]; cbn [andb].
  - destruct (Z.ltb_spec x (2 ^ 31)) as [Hlt|Hge].
    + apply Z.eqb_eq, Z.bits_inj'. intros n Hn.
      rewrite Z.land_spec, Z.bits_0.
      destruct (Z.lt_ge_cases n 31) as [Hlo|Hhi].
      * replace (- 2 ^ 31) with (Z.shiftl (-1) 31) by reflexivity.
        rewrite Z.shiftl_spec_low by lia. reflexivity.
      * destruct (Z.eq_dec x 0) as [->|Hne]; [now rewrite Z.bits_0, andb_false_r|].
        rewrite (Z.bits_above_log2 x n), andb_false_r; [reflexivity|lia|].
        apply Z.log2_lt_pow2; [lia|].
        assert (2 ^ 31 <= 2 ^ n) by (apply Z.pow_le_mono_r; lia). lia.
    + apply Z.eqb_neq. intros E.
      assert (Z.testbit (Z.land (- 2 ^ 31) x) (Z.log2 x) = true) as Hb.
      { assert (31 <= Z.log2 x).
        { apply Z.log2_le_pow2; lia. }
        rewrite Z.land_spec, Z.bit_log2 by lia.
        rewrite testbit_sign; [reflexivity| |lia]. unfold in_range. cbn. lia. }
      rewrite E, Z.bits_0 in Hb. discriminate.
  - apply Z.eqb_neq.
    assert (Z.land (- 2 ^ 31) x < 0); [|lia].
    apply Z.land_neg. lia.
Qed.

(** *** The loop of [clz] *)

Section Loop.

Variable shl_out_of_range : Z -> Z.
Local Abbreviation bit_test := (bit_test shl_out_of_range).
Local Abbreviation clz_loop := (clz_loop shl_out_of_range).
Local Abbreviation clz := (clz shl_out_of_range).

(** No test succeeds below [n]: the loop falls through to the sentinel. *)
Lemma clz_loop_none T d x n :
  0 <= d <= 64 ->
  (forall i, 0 <= i < Z.of_nat n -> bit_test T i x = false) ->
  clz_loop T d x n = d + 1.
Proof.
  intros Hd. induction n as [|n IH]; intros Hno.
  - cbn [IntegerMath.clz_loop]. rewrite add_small by lia. apply convert_small. lia.
  - cbn [IntegerMath.clz_loop]. rewrite Hno by lia. apply IH. intros i Hi. apply Hno. lia.
Qed.

(** The loop stops at the greatest [i] below [n] whose test succeeds. *)
Lemma clz_loop_found T d x n i :
  0 <= d <= 64 -> 0 <= i < Z.of_nat n -> i <= d ->
  bit_test T i x = true ->
  (forall j, i < j < Z.of_nat n -> bit_test T j x = false) ->
  clz_loop T d x n = d - i.
Proof.
  intros Hd. induction n as [|n IH]; intros Hi Hid Hyes Hno; [lia|].
  cbn [IntegerMath.clz_loop].
  destruct (Z.eq_dec i (Z.of_nat n)) as [->|Hne].
  - rewrite Hyes. rewrite sub_small by lia. apply convert_small. lia.
  - rewrite Hno by lia. apply IH; try lia; auto. intros j Hj. apply Hno. lia.
Qed.

Lemma clz_unfold T x :
  clz T x = clz_loop T (digits T) x (Z.to_nat (digits T + 1)).
Proof.
  pose proof (digits_bounds T). unfold IntegerMath.clz.
  rewrite !convert_small by lia. reflexivity.
Qed.

Lemma clz_none T x :
  (forall i, 0 <= i <= digits T -> bit_test T i x = false) ->
  clz T x = digits T + 1.
Proof.
  pose proof (digits_bounds T). intros Hno. rewrite clz_unfold.
  apply clz_loop_none; [lia|]. intros i Hi. apply Hno. lia.
Qed.

Lemma clz_found T x i :
  0 <= i <= digits T ->
  bit_test T i x = true ->
  (forall j, i < j <= digits T -> bit_test T j x = false) ->
  clz T x = digits T - i.
Proof.
  pose proof (digits_bounds T). intros Hi Hyes Hno. rewrite clz_unfold.
  apply clz_loop_found; try lia; auto. intros j Hj. apply Hno. lia.
Qed.

Lemma bit_test_zero T i : bit_test T i 0 = false.
Proof. unfold IntegerMath.bit_test. rewrite band_0_r. reflexivity. Qed.

Lemma shl_one_range i : in_range int (shl_one shl_out_of_range i).
Proof. unfold shl_one. destruct (_ && _); apply convert_range. Qed.

Lemma shl_one_low i : 0 <= i < 31 -> shl_one shl_out_of_range i = 2 ^ i.
Proof.
  intros Hi. unfold shl_one.
  replace ((0 <=? i) && (i <? bits int)) with true.
  - apply convert_in_range. unfold in_range. cbn.
    assert (0 < 2 ^ i) by (apply Z.pow_pos_nonneg; lia).
    assert (2 ^ i <= 2 ^ 30) by (apply Z.pow_le_mono_r; lia). lia.
  - symmetry. apply andb_true_iff. cbn. lia.
Qed.

Lemma shl_one_31 : shl_one shl_out_of_range 31 = - 2 ^ 31.
Proof. reflexivity. Qed.

Lemma shl_one_high i :
  bits int <= i ->
  shl_one shl_out_of_range i = convert int (shl_out_of_range i).
Proof.
  intros Hi. unfold shl_one.
  replace ((0 <=? i) && (i <? bits int)) with false; [reflexivity|].
  symmetry. apply andb_false_iff. right. apply Z.ltb_ge. exact Hi.
Qed.

Lemma bit_test_land T i x :
  in_range T x ->
  bit_test T i x = negb (Z.land (shl_one shl_out_of_range i) x =? 0).
Proof.
  intros Hx. unfold IntegerMath.bit_test. rewrite band_land; auto.
  - each_type T; cbn; lia.
  - apply shl_one_range.
  - now apply in_range_common_l.
Qed.

(** Below position 31 the test reads bit [i] of [x]. *)
Lemma bit_test_low T i x :
  in_range T x -> 0 <= i < 31 -> bit_test T i x = Z.testbit x i.
Proof.
  intros Hx Hi. rewrite bit_test_land, shl_one_low, land_pow2_eqb by (auto; lia).
  apply negb_involutive.
Qed.

(** At position 31 the mask is negative: the test succeeds when [x] has any
    bit set at position 31 or above. *)
Lemma bit_test_31 T x :
  in_range T x -> bit_test T 31 x = negb ((0 <=? x) && (x <? 2 ^ 31)).
Proof.
  intros Hx. rewrite bit_test_land, shl_one_31, land_min_int_eqb by auto.
  reflexivity.
Qed.

(** Where the out-of-range shift yields [0], the test fails. *)
Lemma bit_test_high_zero T i x :
  bits int <= i -> shl_out_of_range i = 0 -> bit_test T i x = false.
Proof.
  intros Hi Hz. unfold IntegerMath.bit_test.
  rewrite shl_one_high, Hz, convert_0, band_0_l by auto. reflexivity.
Qed.

End Loop.

(** C5.  [clz(0)] is the sentinel [digits + 1], for every integer type and
    whatever the machine makes of the out-of-range shifts met on the way:
    every test [(1 << i) & 0] is zero, the loop runs to its end and the
    function returns. *)
Theorem clz_zero_sentinel (shl_out_of_range : Z -> Z) (T : Integer) :
  clz shl_out_of_range T 0 = digits T + 1.
Proof. apply clz_none. intros i _. apply bit_test_zero. Qed.

(** *** [clz] against the highest set bit *)

Lemma highest_set_bit_Some T x i :
  highest_set_bit T x = Some i ->
  0 < bit_pattern T x /\ i = Z.log2 (bit_pattern T x) /\ 0 <= i < bits T.
Proof.
  unfold highest_set_bit. pose proof (bit_pattern_bounds T x) as Hu.
  destruct (Z.eqb_spec (bit_pattern T x) 0) as [|Hne]; [discriminate|].
  intros [= <-]. split; [lia|]. split; [reflexivity|].
  split; [apply Z.log2_nonneg|]. apply Z.log2_lt_pow2; lia.
Qed.

(** The position returned by [highest_set_bit] holds a set bit of the
    representation, and no higher position does. *)
Lemma highest_set_bit_spec T x i :
  highest_set_bit T x = Some i ->
  Z.testbit (bit_pattern T x) i = true /\
  forall j, i < j -> Z.testbit (bit_pattern T x) j = false.
Proof.
  intros H. apply highest_set_bit_Some in H as (Hpos & -> & _). split.
  - apply Z.bit_log2. exact Hpos.
  - intros j Hj. apply Z.bits_above_log2; lia.
Qed.

Lemma clz_at_highest_set_bit shl T x i :
  in_range T x ->
  highest_set_bit T x = Some i ->
  i < bits int ->
  (forall j, bits int <= j <= digits T -> shl j = 0) ->
  clz shl T x = digits T - i.
Proof.
  intros Hx Hh Hi Hshl.
  apply highest_set_bit_Some in Hh as (Hpos & Hlog & Hiw).
  pose proof (bits_pos T) as Hb.
  pose proof (bit_pattern_bounds T x) as Hu.
  assert (Z.testbit (bit_pattern T x) i = true) as Hbit.
  { subst i. now apply Z.bit_log2. }
  assert (2 ^ i <= bit_pattern T x) as Hlo.
  { subst i. apply Z.log2_spec. exact Hpos. }
  assert (x < 0 -> i = digits T /\ i = bits T - 1) as Hneg.
  { intros Hx0. destruct (bit_pattern_neg T x Hx Hx0) as (Hp & Hs & Hge).
    unfold digits. rewrite Hs. rewrite Hp in *.
    assert (i = bits T - 1); [|lia].
    subst i. apply Z.log2_unique; [lia|].
    replace (Z.succ (bits T - 1)) with (bits T) by lia. lia. }
  assert (i <= digits T) as Hid.
  { unfold digits. destruct (int_signed T) eqn:Hs; [|lia].
    destruct (Z.lt_ge_cases x 0) as [Hx0|Hx0]; [apply Hneg in Hx0; lia|].
    rewrite (bit_pattern_nonneg T x) in * by auto.
    revert Hx. unfold in_range, max_value. rewrite Hs. intros Hx.
    assert (i < bits T - 1); [|lia]. subst i. apply Z.log2_lt_pow2; lia. }
  apply clz_found; [lia| |].
  - (* the test at [i] succeeds *)
    destruct (Z.eq_dec i 31) as [E|E].
    + rewrite E in *. rewrite bit_test_31 by auto.
      destruct (Z.leb_spec 0 x) as [Hx0|Hx0]; [|reflexivity].
      rewrite (bit_pattern_nonneg T x) in * by auto.
      cbn in Hi. replace (x <? 2 ^ 31) with false; [reflexivity|].
      symmetry. apply Z.ltb_ge. exact Hlo.
    + cbn in Hi. rewrite bit_test_low by (auto; lia).
      rewrite <- (testbit_bit_pattern T) by lia. exact Hbit.
  - (* every test above [i] fails *)
    intros j Hj.
    destruct (Z.lt_ge_cases x 0) as [Hx0|Hx0]; [apply Hneg in Hx0; lia|].
    rewrite (bit_pattern_nonneg T x) in * by auto.
    assert (x < 2 ^ (i + 1)) as Hhi.
    { subst i. apply Z.log2_spec. exact Hpos. }
    destruct (Z.lt_ge_cases j 31) as [Hj31|Hj31].
    + rewrite bit_test_low by (auto; lia).
      apply Z.bits_above_log2; lia.
    + destruct (Z.eq_dec j 31) as [->|Hne].
      * rewrite bit_test_31 by auto.
        assert (2 ^ (i + 1) <= 2 ^ 31) by (apply Z.pow_le_mono_r; lia).
        replace (0 <=? x) with true by (symmetry; apply Z.leb_le; lia).
        replace (x <? 2 ^ 31) with true by (symmetry; apply Z.ltb_lt; lia).
        reflexivity.
      * apply bit_test_high_zero; [cbn; lia|]. apply Hshl. cbn. lia.
Qed.

(** C1, as the code has it.  The scan starts at [i = digits], not at
    [digits - 1], so for [x] with highest set bit at position [i] the result
    is [digits - i]; [log2] relies on exactly this.  It holds where the
    highest set bit lies below the width of [int] and the shifts by the width
    of [int] or more, where the scan meets any, yield [0].  For an unsigned
    [x > 0] of width [W] this reads
    [2 ^ (W - clz x) <= x < 2 ^ (W - clz x + 1)]. *)
Theorem clz_highest_set_bit shl T x i :
  in_range T x ->
  highest_set_bit T x = Some i ->
  i < bits int ->
  (forall j, bits int <= j <= digits T -> shl j = 0) ->
  clz shl T x = digits T - i /\
  (int_signed T = false ->
   2 ^ (bits T - clz shl T x) <= x < 2 ^ (bits T - clz shl T x + 1)).
Proof.
  intros Hx Hh Hi Hshl.
  rewrite (clz_at_highest_set_bit shl T x i) by assumption.
  split; [reflexivity|]. intros Hs.
  apply highest_set_bit_Some in Hh as (Hpos & -> & _).
  assert (0 <= x) as Hx0.
  { revert Hx. unfold in_range, min_value. rewrite Hs. lia. }
  rewrite (bit_pattern_nonneg T x) in * by assumption.
  unfold digits. rewrite Hs.
  replace (bits T - (bits T - Z.log2 x)) with (Z.log2 x) by lia.
  apply Z.log2_spec. exact Hpos.
Qed.

Lemma clz_highest_set_bit_witness :
  clz shl_zero uint 5 = digits uint - 2 /\
  (int_signed uint = false ->
   2 ^ (bits uint - clz shl_zero uint 5) <= 5
   < 2 ^ (bits uint - clz shl_zero uint 5 + 1)).
Proof.
  apply (clz_highest_set_bit shl_zero uint 5 2).
  - unfold in_range. cbn. lia.
  - reflexivity.
  - cbn. lia.
  - intros j _. reflexivity.
Defined.

(** C1 as stated fails: [clz<unsigned char>(0x80)] is [1], where the
    highest set bit is at position [7] and [digits - 7 - 1 = 0]; and
    [2 ^ (8 - 1 - 1) <= 128 < 2 ^ (8 - 1)] does not hold. *)
Lemma clz_not_digits_minus_i_minus_1 :
  ~ (forall shl T x i,
       in_range T x -> highest_set_bit T x = Some i ->
       clz shl T x = digits T - i - 1) /\
  ~ (forall shl T x,
       int_signed T = false -> in_range T x -> 0 < x ->
       2 ^ (bits T - clz shl T x - 1) <= x < 2 ^ (bits T - clz shl T x)).
Proof.
  split; intros H.
  - assert (clz shl_zero uchar 128 = digits uchar - 7 - 1) as E.
    { apply H; [unfold in_range; cbn; lia | reflexivity]. }
    vm_compute in E. discriminate.
  - assert (2 ^ (bits uchar - clz shl_zero uchar 128 - 1) <= 128
            < 2 ^ (bits uchar - clz shl_zero uchar 128)) as E.
    { apply H; [reflexivity | unfold in_range; cbn; lia | lia]. }
    vm_compute in E. destruct E as [_ E]. discriminate.
Qed.

(** *** Types wider than [int] *)

(** Once some test succeeds at [i], the loop stops at [i] or above. *)
Lemma clz_loop_stops_above shl T d x n i :
  0 <= d <= 64 -> 0 <= i < Z.of_nat n -> Z.of_nat n <= d + 1 ->
  bit_test shl T i x = true ->
  exists k, i <= k < Z.of_nat n /\ clz_loop shl T d x n = d - k.
Proof.
  intros Hd. induction n as [|n IH]; intros Hi Hn Hyes; [lia|].
  cbn [clz_loop].
  destruct (bit_test shl T (Z.of_nat n) x) eqn:E.
  - exists (Z.of_nat n). split; [lia|].
    rewrite sub_small by lia. apply convert_small. lia.
  - assert (i <> Z.of_nat n) by congruence.
    destruct IH as (k & Hk & Ek); try lia; auto.
    exists k. split; [lia|exact Ek].
Qed.

(** A nonzero [x] of a 64-bit type with no bit set below position 32 is
    caught by the sign-extended mask [1 << 31]. *)
Lemma bit_test_31_high_bits shl T x :
  in_range T x -> x <> 0 ->
  (forall j, 0 <= j < bits int -> Z.testbit (bit_pattern T x) j = false) ->
  bit_test shl T 31 x = true.
Proof.
  intros Hx Hne Hlow. rewrite bit_test_31 by assumption.
  destruct (Z.leb_spec 0 x) as [Hx0|Hx0]; [|reflexivity].
  destruct (Z.ltb_spec x (2 ^ 31)) as [Hlt|Hge]; [|reflexivity].
  exfalso. rewrite (bit_pattern_nonneg T x) in Hlow by assumption.
  assert (Z.log2 x < 31) by (apply Z.log2_lt_pow2; lia).
  pose proof (Z.log2_nonneg x).
  assert (Z.testbit x (Z.log2 x) = true) as Hb by (apply Z.bit_log2; lia).
  rewrite Hlow in Hb by (cbn; lia). discriminate.
Qed.

Lemma clz_wide_bound shl T x :
  bits int < bits T -> in_range T x -> x <> 0 ->
  (forall j, 0 <= j < bits int -> Z.testbit (bit_pattern T x) j = false) ->
  0 <= clz shl T x <= digits T - 31.
Proof.
  intros Hw Hx Hne Hlow. pose proof (digits_bounds T) as Hd.
  assert (63 <= digits T) as Hd63 by (each_type T; cbn in *; lia).
  rewrite clz_unfold.
  destruct (clz_loop_stops_above shl T (digits T) x (Z.to_nat (digits T + 1)) 31)
    as (k & Hk & ->); try lia.
  now apply bit_test_31_high_bits.
Qed.

Lemma highest_set_bit_wide T x :
  x <> 0 -> in_range T x ->
  (forall j, 0 <= j < bits int -> Z.testbit (bit_pattern T x) j = false) ->
  exists h, highest_set_bit T x = Some h /\ bits int <= h.
Proof.
  intros Hne Hx Hlow. pose proof (bit_pattern_bounds T x) as Hu.
  assert (bit_pattern T x <> 0) as Hu0.
  { destruct (Z.lt_ge_cases x 0) as [Hx0|Hx0].
    - destruct (bit_pattern_neg T x Hx Hx0) as (-> & _ & Hge).
      pose proof (bits_pos T).
      assert (0 < 2 ^ (bits T - 1)) by (apply Z.pow_pos_nonneg; lia). lia.
    - now rewrite bit_pattern_nonneg. }
  exists (Z.log2 (bit_pattern T x)). unfold highest_set_bit.
  destruct (Z.eqb_spec (bit_pattern T x) 0); [contradiction|].
  split; [reflexivity|].
  destruct (Z.lt_ge_cases (Z.log2 (bit_pattern T x)) (bits int)) as [Hlt|]; [|assumption].
  pose proof (Z.log2_nonneg (bit_pattern T x)).
  assert (Z.testbit (bit_pattern T x) (Z.log2 (bit_pattern T x)) = true) as Hb
    by (apply Z.bit_log2; lia).
  rewrite Hlow in Hb by (cbn in *; lia). discriminate.
Qed.

(** C10, as the code has it.  For a 64-bit type and a nonzero [x] whose set
    bits all lie at position 32 or above, the scan does not run through to
    the sentinel.  The mask [1 << 31] is the most negative [int]; converted
    to the 64-bit type it is sign-extended and covers every position from 31
    up, so the test at [i = 31] succeeds and the scan stops there at the
    latest: the result is at most [digits - 31], whatever the out-of-range
    shifts yield, and exactly [digits - 31] where they yield [0].  The
    highest set bit [h] of [x] is at 32 or above, so this is not
    [digits - h]. *)
Theorem clz_wide_high_bits shl T x :
  bits int < bits T -> in_range T x -> x <> 0 ->
  (forall j, 0 <= j < bits int -> Z.testbit (bit_pattern T x) j = false) ->
  0 <= clz shl T x <= digits T - 31 /\
  clz shl T x <> digits T + 1 /\
  (exists h, highest_set_bit T x = Some h /\ bits int <= h) /\
  ((forall j, bits int <= j <= digits T -> shl j = 0) ->
   clz shl T x = digits T - 31).
Proof.
  intros Hw Hx Hne Hlow.
  pose proof (clz_wide_bound shl T x Hw Hx Hne Hlow) as Hb.
  pose proof (digits_bounds T) as Hd.
  assert (63 <= digits T) as Hd63 by (each_type T; cbn in *; lia).
  split; [exact Hb|]. split; [lia|].
  split; [now apply highest_set_bit_wide|].
  intros Hshl. apply clz_found; [lia| |].
  - now apply bit_test_31_high_bits.
  - intros j Hj. apply bit_test_high_zero; [cbn; lia|]. apply Hshl. cbn. lia.
Qed.

Lemma testbit_2_32_low j :
  0 <= j < bits int -> Z.testbit (bit_pattern ullong (2 ^ 32)) j = false.
Proof.
  intros Hj. cbn in Hj. change (bit_pattern ullong (2 ^ 32)) with (2 ^ 32).
  apply Z.pow2_bits_false. lia.
Qed.

Lemma clz_wide_high_bits_witness :
  0 <= clz shl_zero ullong (2 ^ 32) <= digits ullong - 31 /\
  clz shl_zero ullong (2 ^ 32) <> digits ullong + 1 /\
  (exists h, highest_set_bit ullong (2 ^ 32) = Some h /\ bits int <= h) /\
  ((forall j, bits int <= j <= digits ullong -> shl_zero j = 0) ->
   clz shl_zero ullong (2 ^ 32) = digits ullong - 31).
Proof.
  apply (clz_wide_high_bits shl_zero ullong (2 ^ 32)).
  - cbn. lia.
  - unfold in_range. cbn. lia.
  - discriminate.
  - exact testbit_2_32_low.
Defined.

(** C10 as stated fails, and for every behaviour of the out-of-range shift:
    [clz<unsigned long long>(2^32)] is never the sentinel [65]. *)
Lemma clz_wide_not_sentinel :
  ~ (exists shl, forall T x,
       bits int < bits T -> in_range T x -> x <> 0 ->
       (forall j, 0 <= j < bits int -> Z.testbit (bit_pattern T x) j = false) ->
       clz shl T x = digits T + 1).
Proof.
  intros [shl H].
  assert (bits int < bits ullong) as Hw by (cbn; lia).
  assert (in_range ullong (2 ^ 32)) as Hx by (unfold in_range; cbn; lia).
  assert (2 ^ 32 <> 0) as Hne by discriminate.
  pose proof (clz_wide_bound shl ullong (2 ^ 32) Hw Hx Hne testbit_2_32_low) as Hb.
  rewrite (H ullong (2 ^ 32) Hw Hx Hne testbit_2_32_low) in Hb.
  cbn in Hb. lia.
Qed.

(** *** [is_power_of_2] *)

Lemma pos_popcount_pos p : (1 <= pos_popcount p)%nat.
Proof. induction p; cbn; lia. Qed.

Lemma land_even_odd a b : Z.land (2 * a) (2 * b + 1) = 2 * Z.land a b.
Proof.
  apply Z.bits_inj'. intros n Hn. rewrite Z.land_spec.
  destruct (Z.eq_dec n 0) as [->|Hne].
  - now rewrite !Z.testbit_even_0.
  - replace n with (Z.succ (n - 1)) by lia.
    rewrite !Z.testbit_even_succ, Z.testbit_odd_succ, Z.land_spec by lia.
    reflexivity.
Qed.

Lemma land_odd_even a : Z.land (2 * a + 1) (2 * a) = 2 * a.
Proof.
  apply Z.bits_inj'. intros n Hn. rewrite Z.land_spec.
  destruct (Z.eq_dec n 0) as [->|Hne].
  - now rewrite Z.testbit_even_0, andb_false_r.
  - replace n with (Z.succ (n - 1)) by lia.
    rewrite Z.testbit_even_succ, Z.testbit_odd_succ by lia.
    apply andb_diag.
Qed.

(** The bit trick on a positive number: [x & (x - 1)] clears the lowest set
    bit, and is zero exactly when that was the only one. *)
Lemma land_pred_popcount p :
  Z.land (Zpos p) (Zpos p - 1) = 0 <-> pos_popcount p = 1%nat.
Proof.
  induction p as [q IH|q IH|].
  - rewrite Pos2Z.inj_xI. replace (2 * Z.pos q + 1 - 1) with (2 * Z.pos q) by lia.
    rewrite land_odd_even. cbn [pos_popcount].
    pose proof (pos_popcount_pos q). split; intros; lia.
  - rewrite Pos2Z.inj_xO.
    replace (2 * Z.pos q - 1) with (2 * (Z.pos q - 1) + 1) by lia.
    rewrite land_even_odd. cbn [pos_popcount]. rewrite <- IH. lia.
  - cbn. split; reflexivity.
Qed.

Lemma testbit_top a k :
  0 <= k -> 2 ^ k <= a < 2 ^ (k + 1) -> Z.testbit a k = true.
Proof.
  intros Hk Ha. assert (0 < 2 ^ k) by (apply Z.pow_pos_nonneg; lia).
  rewrite <- (Z.log2_unique a k); [apply Z.bit_log2; lia|lia|].
  replace (Z.succ k) with (k + 1) by lia. exact Ha.
Qed.

(** Away from the most negative value of a signed type, [x - 1] does not
    overflow and the function is the bit trick on the numbers themselves. *)
Lemma is_power_of_2_land T x :
  in_range T x -> (int_signed T = true -> x <> min_value T) ->
  is_power_of_2 T x = (0 =? Z.land x (x - 1)).
Proof.
  intros Hx Hmin. unfold is_power_of_2, band.
  pose proof (in_range_common_r T x Hx) as HxC.
  rewrite (convert_in_range _ x HxC).
  destruct (Z.eq_dec x 0) as [->|Hne]; [now rewrite !Z.land_0_l|].
  unfold sub. rewrite (convert_in_range _ x HxC), (convert_small _ 1) by lia.
  assert (in_range (common_type T int) (x - 1)) as Hp.
  { assert (in_range T (x - 1)) as Hp; [|now apply in_range_common_r].
    revert Hx Hmin. unfold in_range, min_value, max_value.
    destruct (int_signed T); intros; [|lia].
    assert (x <> - 2 ^ (bits T - 1)) by auto. lia. }
  rewrite !(convert_in_range _ (x - 1) Hp). reflexivity.
Qed.

Lemma is_power_of_2_zero T : is_power_of_2 T 0 = true.
Proof. unfold is_power_of_2. now rewrite band_0_l. Qed.

Lemma exactly_one_set_bit_neg T x :
  in_range T x -> x < 0 -> x <> min_value T -> ~ exactly_one_set_bit T x.
Proof.
  intros Hx Hx0 Hmin. unfold exactly_one_set_bit.
  destruct (bit_pattern_neg T x Hx Hx0) as (-> & Hs & Hge).
  pose proof (bits_pos T) as Hb.
  unfold min_value in Hmin. rewrite Hs in Hmin.
  assert (2 ^ bits T = 2 * 2 ^ (bits T - 1)) as He.
  { rewrite <- Z.pow_succ_r by lia. f_equal. lia. }
  remember (x + 2 ^ bits T) as u eqn:Hu.
  assert (2 ^ (bits T - 1) < u < 2 ^ bits T) as Hr by lia.
  destruct u as [|p|p]; cbn [popcount]; try lia.
  intros Hone. apply land_pred_popcount in Hone.
  assert (Z.testbit (Z.land (Z.pos p) (Z.pos p - 1)) (bits T - 1) = true) as Hbit.
  { rewrite Z.land_spec, !testbit_top; try reflexivity; try lia;
      replace (bits T - 1 + 1) with (bits T) by lia; lia. }
  rewrite Hone, Z.bits_0 in Hbit. discriminate.
Qed.

(** C4, as the code has it.  Away from the most negative value of a signed
    type, [is_power_of_2(x)] is true exactly when one bit of [x] is set or
    [x] is [0]; [is_power_of_2(0)] is true; and the result is the bit trick
    [0 == (x & (x - 1))]. *)
Theorem is_power_of_2_one_bit_or_zero T x :
  in_range T x -> (int_signed T = true -> x <> min_value T) ->
  (is_power_of_2 T x = true <-> exactly_one_set_bit T x \/ x = 0) /\
  is_power_of_2 T 0 = true /\
  is_power_of_2 T x = (0 =? Z.land x (x - 1)).
Proof.
  intros Hx Hmin.
  split; [|split; [apply is_power_of_2_zero|now apply is_power_of_2_land]].
  rewrite is_power_of_2_land by assumption.
  destruct (Z.lt_trichotomy x 0) as [Hneg|[->|Hpos]].
  - assert (x <> min_value T) as Hm.
    { destruct (bit_pattern_neg T x Hx Hneg) as (_ & Hs & _). auto. }
    split.
    + intros E. apply Z.eqb_eq in E.
      assert (Z.land x (x - 1) < 0) by (apply Z.land_neg; lia). lia.
    + intros [H|H]; [|lia]. now apply exactly_one_set_bit_neg in H.
  - split; [now right|reflexivity].
  - unfold exactly_one_set_bit. rewrite bit_pattern_nonneg by (auto; lia).
    destruct x as [|p|p]; try lia. cbn [popcount].
    rewrite <- land_pred_popcount. split.
    + intros E. apply Z.eqb_eq in E. now left.
    + intros [E|E]; [|lia]. apply Z.eqb_eq. now symmetry.
Qed.

Lemma is_power_of_2_one_bit_or_zero_witness :
  (is_power_of_2 int 64 = true <-> exactly_one_set_bit int 64 \/ 64 = 0) /\
  is_power_of_2 int 0 = true /\
  is_power_of_2 int 64 = (0 =? Z.land 64 (64 - 1)).
Proof.
  apply (is_power_of_2_one_bit_or_zero int 64).
  - unfold in_range. cbn. lia.
  - intros _. discriminate.
Defined.

(** C4 as stated fails at the most negative [signed char]: [-128] is
    [0x80], one set bit, but [x] and [x - 1] are promoted to [int] and
    [-128 & -129] is [-256], so the function returns false. *)
Lemma is_power_of_2_min_schar :
  ~ (forall T x,
       in_range T x ->
       (is_power_of_2 T x = true <-> exactly_one_set_bit T x \/ x = 0)).
Proof.
  intros H.
  assert (in_range schar (-128)) as Hx by (unfold in_range; cbn; lia).
  destruct (H schar (-128) Hx) as [_ Hback].
  assert (is_power_of_2 schar (-128) = true) as E by (apply Hback; left; reflexivity).
  vm_compute in E. discriminate.
Qed.

(** *** [log2] and [log2_ri] *)

Lemma popcount_one_pow2 p :
  pos_popcount p = 1%nat <-> Z.pos p = 2 ^ Z.log2 (Z.pos p).
Proof.
  induction p as [q IH|q IH|].
  - rewrite Pos2Z.inj_xI, Z.log2_succ_double, Z.pow_succ_r
      by (try apply Z.log2_nonneg; lia).
    cbn [pos_popcount]. pose proof (pos_popcount_pos q). split; intros; lia.
  - rewrite Pos2Z.inj_xO, Z.log2_double, Z.pow_succ_r
      by (try apply Z.log2_nonneg; lia).
    cbn [pos_popcount]. rewrite IH. lia.
  - cbn. split; reflexivity.
Qed.

Lemma log2_up_not_pow2 x :
  0 < x -> x <> 2 ^ Z.log2 x -> Z.log2_up x = Z.log2 x + 1.
Proof.
  intros Hx Hne. pose proof (Z.log2_spec x Hx) as [Hlo Hhi].
  pose proof (Z.log2_nonneg x).
  assert (0 < 2 ^ Z.log2 x) by (apply Z.pow_pos_nonneg; lia).
  rewrite Z.log2_up_eqn by lia.
  rewrite (Z.log2_unique (Z.pred x) (Z.log2 x)); lia.
Qed.

Lemma log2_at_highest_set_bit shl T x i :
  0 <= i <= digits T -> clz shl T x = digits T - i -> log2 shl T x = i.
Proof.
  intros Hi E. pose proof (digits_bounds T). unfold log2. rewrite E.
  rewrite sub_small by lia. replace (digits T - (digits T - i)) with i by lia.
  apply convert_small. lia.
Qed.

(** X1.  Where [clz] is right, [log2_ri] is the ceiling of the binary logarithm:
    for an unsigned [x >= 1] below [2 ^ 32], the out-of-range shifts the
    scan meets yielding [0]. *)
Lemma log2_ri_ceiling shl T x :
  int_signed T = false -> in_range T x -> 1 <= x -> x < 2 ^ bits int ->
  (forall j, bits int <= j <= digits T -> shl j = 0) ->
  log2_ri shl T x = Z.log2_up x.
Proof.
  intros Hs Hx Hx1 Hx32 Hshl.
  pose proof (digits_bounds T) as Hd. pose proof (bits_pos T) as Hb.
  pose proof (Z.log2_nonneg x) as Hl0.
  assert (bit_pattern T x = x) as Hu by (apply bit_pattern_nonneg; auto; lia).
  assert (highest_set_bit T x = Some (Z.log2 x)) as Hh.
  { unfold highest_set_bit. rewrite Hu.
    destruct (Z.eqb_spec x 0); [lia|reflexivity]. }
  assert (Z.log2 x < bits int) as Hl by (apply Z.log2_lt_pow2; lia).
  pose proof (clz_at_highest_set_bit shl T x _ Hx Hh Hl Hshl) as Hclz.
  apply highest_set_bit_Some in Hh as (_ & _ & Hlw).
  assert (Z.log2 x <= digits T) as Hld by (unfold digits; rewrite Hs; lia).
  unfold log2_ri.
  rewrite (log2_at_highest_set_bit shl T x (Z.log2 x)) by (auto; lia).
  rewrite is_power_of_2_land by (auto; congruence).
  destruct x as [|p|p]; try lia.
  destruct (Z.eqb_spec 0 (Z.land (Z.pos p) (Z.pos p - 1))) as [E|E]; cbn [negb].
  - symmetry in E. apply land_pred_popcount, popcount_one_pow2 in E.
    rewrite E at 2. symmetry. apply Z.log2_up_pow2. exact Hl0.
  - rewrite add_small by (cbn in Hl; lia).
    rewrite convert_small by (cbn in Hl; lia).
    symmetry. apply log2_up_not_pow2; [lia|].
    intros E'. apply E. symmetry. now apply land_pred_popcount, popcount_one_pow2.
Qed.

Lemma log2_ri_ceiling_witness : log2_ri shl_zero uint 9 = Z.log2_up 9.
Proof.
  apply (log2_ri_ceiling shl_zero uint 9).
  - reflexivity.
  - unfold in_range. cbn. lia.
  - lia.
  - cbn. lia.
  - intros j _. reflexivity.
Defined.

(** The values the specification lists. *)
Example log2_ri_examples :
  log2_ri shl_zero uint 1 = 0 /\ log2_ri shl_zero uint 5 = 3 /\
  log2_ri shl_zero uint 8 = 3 /\ log2_ri shl_zero uint 9 = 4.
Proof. repeat split; reflexivity. Qed.

Lemma clz_loop_ext shl T d x y n :
  (forall i, 0 <= i < Z.of_nat n -> bit_test shl T i x = bit_test shl T i y) ->
  clz_loop shl T d x n = clz_loop shl T d y n.
Proof.
  induction n as [|n IH]; intros H; [reflexivity|].
  cbn [clz_loop]. rewrite H by lia.
  destruct (bit_test shl T (Z.of_nat n) y); [reflexivity|].
  apply IH. intros i Hi. apply H. lia.
Qed.

(** Against a single bit at position 31 or above, every test only reads the
    sign of the [int] mask. *)
Lemma bit_test_pow2_high shl T i k :
  in_range T (2 ^ k) -> 31 <= k ->
  bit_test shl T i (2 ^ k) = (shl_one shl i <? 0).
Proof.
  intros Hx Hk. rewrite bit_test_land by assumption.
  rewrite Z.land_comm, land_pow2_eqb, negb_involutive by lia.
  apply testbit_sign; [apply shl_one_range|exact Hk].
Qed.

(** C6 fails on the code for a 64-bit type.  Whatever the out-of-range
    shifts yield, [log2_ri<unsigned long long>] returns the same value at
    [2^32] and at [2^33], whose ceiling logarithms are [32] and [33]; where
    they yield [0], it returns [31] at [2^33]. *)
Theorem log2_ri_wide_collapses :
  log2_ri shl_zero ullong (2 ^ 33) = 31 /\
  Z.log2_up (2 ^ 32) = 32 /\ Z.log2_up (2 ^ 33) = 33 /\
  (forall shl, log2_ri shl ullong (2 ^ 32) = log2_ri shl ullong (2 ^ 33)).
Proof.
  split; [reflexivity|]. split; [reflexivity|]. split; [reflexivity|].
  intros shl.
  assert (clz shl ullong (2 ^ 32) = clz shl ullong (2 ^ 33)) as E.
  { rewrite !clz_unfold. apply clz_loop_ext. intros i _.
    rewrite !bit_test_pow2_high; try reflexivity; try lia;
      unfold in_range; cbn; lia. }
  unfold log2_ri, log2. rewrite E.
  change (is_power_of_2 ullong (2 ^ 32)) with true.
  change (is_power_of_2 ullong (2 ^ 33)) with true.
  reflexivity.
Qed.

(** *** Further properties of [clz] *)

Lemma bit_pattern_nonzero T x : in_range T x -> x <> 0 -> 0 < bit_pattern T x.
Proof.
  intros Hx Hne. pose proof (bits_pos T).
  destruct (Z.lt_ge_cases x 0) as [Hx0|Hx0].
  - destruct (bit_pattern_neg T x Hx Hx0) as (-> & _ & Hge).
    assert (0 < 2 ^ (bits T - 1)) by (apply Z.pow_pos_nonneg; lia). lia.
  - rewrite bit_pattern_nonneg by assumption. lia.
Qed.

(** A successful test at [i] bounds the result: the scan stops at [i] or
    above. *)
Lemma clz_upper shl T x i :
  0 <= i <= digits T -> bit_test shl T i x = true ->
  0 <= clz shl T x <= digits T - i.
Proof.
  intros Hi Hyes. pose proof (digits_bounds T). rewrite clz_unfold.
  destruct (clz_loop_stops_above shl T (digits T) x (Z.to_nat (digits T + 1)) i)
    as (k & Hk & ->); lia || auto.
Qed.

(** Every nonzero value is caught by a test the machine defines: the one at
    its highest set bit, or the one at position 31 when that bit is higher. *)
Lemma bit_test_some shl T x :
  in_range T x -> x <> 0 ->
  exists i, 0 <= i <= digits T /\ i <= 31 /\ bit_test shl T i x = true.
Proof.
  intros Hx Hne. pose proof (bits_pos T) as Hb.
  pose proof (bit_pattern_nonzero T x Hx Hne) as Hpos.
  pose proof (bit_pattern_bounds T x) as Hu.
  pose proof (Z.log2_nonneg (bit_pattern T x)) as Hl0.
  assert (Z.log2 (bit_pattern T x) < bits T) as Hlw
    by (apply Z.log2_lt_pow2; lia).
  destruct (Z.lt_ge_cases (Z.log2 (bit_pattern T x)) 31) as [Hlo|Hhi].
  - exists (Z.log2 (bit_pattern T x)). split; [|split; [lia|]].
    + unfold digits. destruct (int_signed T); lia.
    + rewrite bit_test_low by (auto; lia).
      rewrite <- (testbit_bit_pattern T) by lia. now apply Z.bit_log2.
  - exists 31. split; [|split; [lia|]].
    + each_type T; cbn in *; lia.
    + rewrite bit_test_31 by assumption.
      destruct (Z.leb_spec 0 x) as [Hx0|Hx0]; [|reflexivity].
      rewrite (bit_pattern_nonneg T x) in * by assumption.
      replace (x <? 2 ^ 31) with false; [reflexivity|].
      symmetry. apply Z.ltb_ge.
      apply Z.log2_le_pow2; lia.
Qed.

(** X2.  The sentinel identifies zero: for every integer type, every value
    [x] of the type and whatever the out-of-range shifts yield, [clz(x)] lies
    between [0] and [digits + 1], and it is [digits + 1] exactly when [x] is
    [0]. *)
Theorem clz_sentinel_iff_zero shl T x :
  in_range T x ->
  0 <= clz shl T x <= digits T + 1 /\
  (clz shl T x = digits T + 1 <-> x = 0).
Proof.
  intros Hx. pose proof (digits_bounds T) as Hd.
  destruct (Z.eq_dec x 0) as [->|Hne].
  - assert (clz shl T 0 = digits T + 1) as E.
    { apply clz_none. intros i _. apply bit_test_zero. }
    rewrite E. split; [lia|]. split; auto.
  - destruct (bit_test_some shl T x Hx Hne) as (i & Hi & _ & Hyes).
    pose proof (clz_upper shl T x i Hi Hyes). split; [lia|].
    split; [lia|contradiction].
Qed.

Lemma clz_sentinel_iff_zero_witness :
  0 <= clz shl_masked ullong (2 ^ 40) <= digits ullong + 1 /\
  (clz shl_masked ullong (2 ^ 40) = digits ullong + 1 <-> 2 ^ 40 = 0).
Proof.
  apply (clz_sentinel_iff_zero shl_masked ullong (2 ^ 40)).
  unfold in_range. cbn. lia.
Defined.

Lemma highest_set_bit_neg T x :
  in_range T x -> x < 0 -> highest_set_bit T x = Some (bits T - 1).
Proof.
  intros Hx Hx0. pose proof (bits_pos T) as Hb.
  destruct (bit_pattern_neg T x Hx Hx0) as (Hp & Hs & Hge).
  unfold highest_set_bit. rewrite Hp.
  assert (0 < 2 ^ (bits T - 1)) by (apply Z.pow_pos_nonneg; lia).
  destruct (Z.eqb_spec (x + 2 ^ bits T) 0); [lia|].
  f_equal. apply Z.log2_unique; [lia|].
  replace (Z.succ (bits T - 1)) with (bits T) by lia. lia.
Qed.

(** X3.  Negative values: for a signed type no wider than [int] and every
    negative [x], the sign bit is the first bit the scan finds, so [clz(x)]
    is [0] and [log2(x)] is [digits], whatever the out-of-range shifts
    yield. *)
Theorem clz_log2_negative shl T x :
  int_signed T = true -> bits T <= bits int -> in_range T x -> x < 0 ->
  clz shl T x = 0 /\ log2 shl T x = digits T.
Proof.
  intros Hs Hw Hx Hx0. pose proof (bits_pos T) as Hb.
  assert (digits T = bits T - 1) as Hd by (unfold digits; now rewrite Hs).
  assert (clz shl T x = digits T - (bits T - 1)) as E.
  { apply clz_at_highest_set_bit; auto.
    - now apply highest_set_bit_neg.
    - lia.
    - intros j Hj. lia. }
  split; [lia|].
  apply log2_at_highest_set_bit; lia.
Qed.

Lemma clz_log2_negative_witness :
  clz shl_masked int (-5) = 0 /\ log2 shl_masked int (-5) = digits int.
Proof.
  apply (clz_log2_negative shl_masked int (-5)).
  - reflexivity.
  - cbn. lia.
  - unfold in_range. cbn. lia.
  - lia.
Defined.

(** *** Further properties of [log2], [log2_ri], [is_power_of_2], [is_odd] *)

Lemma highest_set_bit_pos T x :
  in_range T x -> 0 < x ->
  highest_set_bit T x = Some (Z.log2 x) /\ Z.log2 x <= digits T.
Proof.
  intros Hx Hx0. pose proof (bits_pos T) as Hb.
  assert (bit_pattern T x = x) as Hu by (apply bit_pattern_nonneg; auto; lia).
  unfold highest_set_bit. rewrite Hu.
  destruct (Z.eqb_spec x 0); [lia|]. split; [reflexivity|].
  revert Hx. unfold in_range, max_value, digits.
  destruct (int_signed T); intros Hx.
  - assert (Z.log2 x < bits T - 1); [|lia]. apply Z.log2_lt_pow2; lia.
  - assert (Z.log2 x < bits T); [|lia]. apply Z.log2_lt_pow2; lia.
Qed.

Lemma log2_positive shl T x :
  in_range T x -> 0 < x -> x < 2 ^ bits int ->
  (forall j, bits int <= j <= digits T -> shl j = 0) ->
  log2 shl T x = Z.log2 x.
Proof.
  intros Hx Hx0 Hx32 Hshl.
  destruct (highest_set_bit_pos T x Hx Hx0) as [Hh Hld].
  pose proof (Z.log2_nonneg x).
  apply log2_at_highest_set_bit; [lia|].
  apply clz_at_highest_set_bit; auto. apply Z.log2_lt_pow2; lia.
Qed.

(** X4.  [log2] is the floor of the binary logarithm: for [x >= 1] below
    [2 ^ 32], the out-of-range shifts the scan meets yielding [0],
    [2 ^ log2(x) <= x < 2 ^ (log2(x) + 1)]. *)
Theorem log2_floor shl T x :
  in_range T x -> 1 <= x -> x < 2 ^ bits int ->
  (forall j, bits int <= j <= digits T -> shl j = 0) ->
  0 <= log2 shl T x /\
  2 ^ log2 shl T x <= x < 2 ^ (log2 shl T x + 1).
Proof.
  intros Hx Hx1 Hx32 Hshl. rewrite log2_positive by (auto; lia).
  split; [apply Z.log2_nonneg|]. apply Z.log2_spec. lia.
Qed.

Lemma log2_floor_witness :
  0 <= log2 shl_zero ullong 1000 /\
  2 ^ log2 shl_zero ullong 1000 <= 1000 < 2 ^ (log2 shl_zero ullong 1000 + 1).
Proof.
  apply (log2_floor shl_zero ullong 1000).
  - unfold in_range. cbn. lia.
  - lia.
  - cbn. lia.
  - intros j _. reflexivity.
Defined.

(** X5.  [log2(0)] is [digits - (digits + 1)] converted to the type: [-1]
    for a signed type, and the largest value [2 ^ bits - 1] for an unsigned
    one, where the subtraction wraps around. *)
Theorem log2_zero shl T :
  log2 shl T 0 = if int_signed T then -1 else 2 ^ bits T - 1.
Proof.
  unfold log2.
  assert (clz shl T 0 = digits T + 1) as ->.
  { apply clz_none. intros i _. apply bit_test_zero. }
  each_type T; reflexivity.
Qed.

(** X6.  [is_odd(x)] is true exactly for the odd values, negative ones
    included. *)
Theorem is_odd_odd T x : in_range T x -> is_odd T x = Z.odd x.
Proof.
  intros Hx. unfold is_odd. rewrite band_land.
  - change 1 with (2 ^ 0) at 1. rewrite land_pow2_eqb by lia.
    rewrite negb_involutive. apply Z.bit0_odd.
  - each_type T; cbn; lia.
  - unfold in_range. cbn. lia.
  - now apply in_range_common_l.
Qed.

Lemma is_odd_odd_witness : is_odd schar (-7) = Z.odd (-7).
Proof. apply (is_odd_odd schar (-7)). unfold in_range. cbn. lia. Defined.

(** X7.  On positive values [is_power_of_2] is the test its name says:
    true exactly when [x] is [2 ^ k] for some [k >= 0]. *)
Theorem is_power_of_2_positive T x :
  in_range T x -> 0 < x ->
  (is_power_of_2 T x = true <-> exists k, 0 <= k /\ x = 2 ^ k).
Proof.
  intros Hx Hx0.
  rewrite is_power_of_2_land; [|assumption|].
  - destruct x as [|p|p]; try lia.
    rewrite Z.eqb_eq. split.
    + intros E. symmetry in E. apply land_pred_popcount, popcount_one_pow2 in E.
      exists (Z.log2 (Z.pos p)). split; [apply Z.log2_nonneg|exact E].
    + intros (k & Hk & E). symmetry.
      apply land_pred_popcount, popcount_one_pow2.
      rewrite E at 2. now rewrite Z.log2_pow2.
  - intros Hs E. revert E. unfold min_value. rewrite Hs.
    pose proof (bits_pos T).
    assert (0 < 2 ^ (bits T - 1)) by (apply Z.pow_pos_nonneg; lia). lia.
Qed.

Lemma is_power_of_2_positive_witness :
  is_power_of_2 ushort 4096 = true <-> exists k, 0 <= k /\ 4096 = 2 ^ k.
Proof.
  apply (is_power_of_2_positive ushort 4096).
  - unfold in_range. cbn. lia.
  - lia.
Defined.

(** X8.  Negative values are never reported as powers of two, the most
    negative value of the type apart (where [x - 1] is out of range). *)
Theorem is_power_of_2_negative T x :
  in_range T x -> x < 0 -> x <> min_value T -> is_power_of_2 T x = false.
Proof.
  intros Hx Hx0 Hmin. rewrite is_power_of_2_land by auto.
  apply Z.eqb_neq.
  assert (Z.land x (x - 1) < 0) by (apply Z.land_neg; lia). lia.
Qed.

Lemma is_power_of_2_negative_witness : is_power_of_2 int (-4) = false.
Proof.
  apply (is_power_of_2_negative int (-4)).
  - unfold in_range. cbn. lia.
  - lia.
  - discriminate.
Defined.

Lemma log2_ri_cases shl T x :
  in_range T x -> 0 < x -> x < 2 ^ bits int ->
  (forall j, bits int <= j <= digits T -> shl j = 0) ->
  (x = 2 ^ Z.log2 x /\ log2_ri shl T x = Z.log2 x) \/
  (2 ^ Z.log2 x < x /\ log2_ri shl T x = Z.log2 x + 1).
Proof.
  intros Hx Hx0 Hx32 Hshl.
  destruct (highest_set_bit_pos T x Hx Hx0) as [_ Hld].
  pose proof (digits_bounds T) as Hd. pose proof (Z.log2_nonneg x) as Hl0.
  assert (Z.log2 x < bits int) as Hl by (apply Z.log2_lt_pow2; lia).
  cbn in Hl.
  assert (2 ^ Z.log2 x <= x) as Hlo by (apply Z.log2_spec; lia).
  unfold log2_ri. rewrite log2_positive by auto.
  rewrite is_power_of_2_land; [|assumption|].
  - destruct x as [|p|p]; try lia.
    destruct (Z.eqb_spec 0 (Z.land (Z.pos p) (Z.pos p - 1))) as [E|E]; cbn [negb].
    + left. symmetry in E. apply land_pred_popcount, popcount_one_pow2 in E.
      split; [exact E|reflexivity].
    + right. rewrite add_small, convert_small by lia. split; [|reflexivity].
      assert (Z.pos p <> 2 ^ Z.log2 (Z.pos p)); [|lia].
      intros E'. apply E. symmetry.
      now apply land_pred_popcount, popcount_one_pow2.
  - intros Hs E. revert E. unfold min_value. rewrite Hs.
    pose proof (bits_pos T).
    assert (0 < 2 ^ (bits T - 1)) by (apply Z.pow_pos_nonneg; lia). lia.
Qed.

(** X9.  [2 ^ log2_ri(x)] is the least power of two that is at least [x]:
    for [x >= 1] below [2 ^ 32], the out-of-range shifts the scan meets
    yielding [0], [x <= 2 ^ log2_ri(x)], and [log2_ri(x) <= k] for every
    [k] with [x <= 2 ^ k]. *)
Theorem log2_ri_least_power shl T x :
  in_range T x -> 1 <= x -> x < 2 ^ bits int ->
  (forall j, bits int <= j <= digits T -> shl j = 0) ->
  0 <= log2_ri shl T x /\
  x <= 2 ^ log2_ri shl T x /\
  (forall k, 0 <= k -> x <= 2 ^ k -> log2_ri shl T x <= k).
Proof.
  intros Hx Hx1 Hx32 Hshl. pose proof (Z.log2_nonneg x) as Hl0.
  assert (x < 2 ^ (Z.log2 x + 1)) as Hhi by (apply Z.log2_spec; lia).
  destruct (log2_ri_cases shl T x) as [[E ->]|[Hlt ->]]; auto; try lia.
  - split; [lia|]. split; [lia|]. intros k Hk Hle.
    apply (Z.pow_le_mono_r_iff 2); lia.
  - split; [lia|]. split; [lia|]. intros k Hk Hle.
    assert (Z.log2 x < k); [|lia]. apply (Z.pow_lt_mono_r_iff 2); lia.
Qed.

Lemma log2_ri_least_power_witness :
  0 <= log2_ri shl_zero uint 1000 /\
  1000 <= 2 ^ log2_ri shl_zero uint 1000 /\
  (forall k, 0 <= k -> 1000 <= 2 ^ k -> log2_ri shl_zero uint 1000 <= k).
Proof.
  apply (log2_ri_least_power shl_zero uint 1000).
  - unfold in_range. cbn. lia.
  - lia.
  - cbn. lia.
  - intros j _. reflexivity.
Defined.

End IntegerMathFacts.

(** ** Part IV: properties of the policy decorator *)

Module ExecutePolicyFacts.
Import ExecutePolicy.

Section Facts.

Context {BaseSystem Allocator Dependency Handle : Type}.
Variable default_super : BaseSystem.
Variable capture : Dependency -> Handle.

Local Abbreviation object := (@object BaseSystem Allocator Handle).
Local Abbreviation world := (@world BaseSystem Allocator Dependency Handle).
Local Abbreviation capture_as_dependency := (capture_as_dependency capture).
Local Abbreviation after := (after default_super capture).
Local Abbreviation after_tuple := (after_tuple default_super capture).
Local Abbreviation rebind_after := (rebind_after default_super capture).
Local Abbreviation rebind_after_tuple := (rebind_after_tuple default_super capture).
Local Abbreviation after_result := (after_result default_super capture).

Implicit Types (w : world) (o : object) (b : BaseSystem) (a : Allocator).
Implicit Types (e : @execute_with_allocator BaseSystem Allocator).
Implicit Types (deps : list Dependency) (h : Dependency).

(** *** Running the operations *)


Lemma next_loc_unused w : objects w !! next_loc w = None.
Proof. unfold next_loc. apply (not_elem_of_dom (D := gset loc)). apply is_fresh. Qed.


Lemma preserved_lookup w w' l o :
  preserved w w' -> objects w !! l = Some o -> objects w' !! l = Some o.
Proof. intros Hsub Hl. eapply lookup_weaken; eauto. Qed.

Lemma preserved_insert_next w o c :
  preserved w (World (<[next_loc w := o]> (objects w)) c).
Proof. apply insert_subseteq, next_loc_unused. Qed.

Lemma get_this_Some w this e :
  objects w !! this = Some (ObjEwa e) -> get_this this w = Some (e, w).
Proof.
  intros H. unfold get_this, get_object, mbind, M_bind. rewrite H. reflexivity.
Qed.


Lemma get_super_Some w p b :
  source_super w p = Some b -> get_super p w = Some (b, w).
Proof.
  unfold source_super, get_super, get_object, mbind, M_bind.
  destruct (objects w !! p) as [[| |]|]; intros [= <-] || intros [=]; reflexivity.
Qed.

Lemma source_super_preserved w w' p b :
  preserved w w' -> source_super w p = Some b -> source_super w' p = Some b.
Proof.
  unfold source_super. intros Hsub.
  destruct (objects w !! p) as [o|] eqn:E; [|discriminate].
  rewrite (preserved_lookup w w' p o Hsub E). auto.
Qed.

Lemma construct_from_run w p b a :
  source_super w p = Some b ->
  construct_from p a w =
    Some (next_loc w,
          World (<[next_loc w := ObjEwa (ExecuteWithAllocator b a)]> (objects w))
                (captured w)).
Proof.
  intros H. unfold construct_from, mbind, M_bind.
  rewrite (get_super_Some w p b H). reflexivity.
Qed.

(** The captures of a pack run left to right: one call per value, the
    handles in the order of the values. *)
Lemma mapM_capture_run deps w :
  mapM capture_as_dependency deps w =
    Some (capture <$> deps, World (objects w) (captured w ++ deps)).
Proof.
  revert w. induction deps as [|d deps IH]; intros w.
  - destruct w. cbn. unfold mret, M_ret. now rewrite app_nil_r.
  - cbn. unfold mbind, M_bind. cbn. rewrite IH. cbn.
    unfold mret, M_ret. now rewrite <- app_assoc.
Qed.


Lemma after_run w this e deps :
  objects w !! this = Some (ObjEwa e) ->
  after this deps w = Some (next_loc w, after_result w e deps).
Proof.
  intros H. unfold after, mbind, M_bind.
  rewrite (get_this_Some w this e H), mapM_capture_run. reflexivity.
Qed.

Lemma after_tuple_run w this e deps :
  objects w !! this = Some (ObjEwa e) ->
  after_tuple this deps w = Some (next_loc w, after_result w e deps).
Proof.
  intros H. unfold after_tuple, capture_as_dependency_tuple, mbind, M_bind.
  rewrite (get_this_Some w this e H), mapM_capture_run. reflexivity.
Qed.

Lemma rebind_after_run w this e deps :
  objects w !! this = Some (ObjEwa e) ->
  rebind_after this deps w = Some (next_loc w, after_result w e deps).
Proof.
  intros H. unfold rebind_after, mbind, M_bind.
  rewrite (get_this_Some w this e H), mapM_capture_run. reflexivity.
Qed.

Lemma rebind_after_tuple_run w this e deps :
  objects w !! this = Some (ObjEwa e) ->
  rebind_after_tuple this deps w = Some (next_loc w, after_result w e deps).
Proof.
  intros H.
  unfold rebind_after_tuple, capture_as_dependency_tuple, mbind, M_bind.
  rewrite (get_this_Some w this e H), mapM_capture_run. reflexivity.
Qed.

Lemma after_result_lookup w e deps :
  objects (after_result w e deps) !! next_loc w =
    Some (ObjEwad (ExecuteWithAllocatorAndDependencies
                     default_super (alloc e) (capture <$> deps))).
Proof. cbn. apply lookup_insert_eq. Qed.

Lemma after_result_preserved w e deps : preserved w (after_result w e deps).
Proof. apply preserved_insert_next. Qed.

Lemma construct_from_lookup w p b a w' d :
  source_super w p = Some b ->
  construct_from p a w = Some (d, w') ->
  d = next_loc w /\ preserved w w' /\ captured w' = captured w /\
  objects w' !! d = Some (ObjEwa (ExecuteWithAllocator b a)).
Proof.
  intros Hp. rewrite (construct_from_run w p b a Hp). intros [= <- <-].
  split; [reflexivity|]. split; [apply preserved_insert_next|].
  split; [reflexivity|]. cbn. apply lookup_insert_eq.
Qed.

(** *** The properties of the specification *)

(** C2.  Called on the same decorator with the same dependencies, [after]
    and [rebind_after] return the same policy: the allocator of the
    decorator and the handles of the dependencies in order; the tuple forms
    of the two agree as well. *)
Theorem after_rebind_after_equivalent w this e deps :
  objects w !! this = Some (ObjEwa e) ->
  exists l w',
    after this deps w = Some (l, w') /\
    rebind_after this deps w = Some (l, w') /\
    after_tuple this deps w = rebind_after_tuple this deps w /\
    objects w' !! l =
      Some (ObjEwad (ExecuteWithAllocatorAndDependencies
                       default_super (alloc e) (capture <$> deps))).
Proof.
  intros H. exists (next_loc w), (after_result w e deps).
  split; [now apply after_run|]. split; [now apply rebind_after_run|].
  split; [|apply after_result_lookup].
  now rewrite (after_tuple_run w this e), (rebind_after_tuple_run w this e).
Qed.

(** C3.  Decorating [P] with allocator [A] and the result with the
    dependencies [h1, h2] gives a policy whose allocator is [A] and whose
    dependency list is the handle of [h1] followed by the handle of [h2];
    [capture_as_dependency] was called once on [h1], then once on [h2]. *)
Theorem after_decorated w p b a h1 h2 :
  source_super w p = Some b ->
  exists d l w',
    (d ← construct_from p a; l ← after d [h1; h2]; mret (d, l)) w
      = Some ((d, l), w') /\
    objects w' !! l =
      Some (ObjEwad (ExecuteWithAllocatorAndDependencies
                       default_super a [capture h1; capture h2])) /\
    captured w' = captured w ++ [h1; h2].
Proof.
  intros Hp.
  set (e := ExecuteWithAllocator b a).
  set (w1 := World (<[next_loc w := ObjEwa e]> (objects w)) (captured w)).
  assert (objects w1 !! next_loc w = Some (ObjEwa e)) as Hd
    by apply lookup_insert_eq.
  exists (next_loc w), (next_loc w1), (after_result w1 e [h1; h2]).
  split; [|split; [apply after_result_lookup|reflexivity]].
  unfold mbind at 1. unfold M_bind at 1.
  rewrite (construct_from_run w p b a Hp). fold e. fold w1.
  unfold mbind, M_bind. rewrite (after_run w1 _ e _ Hd). reflexivity.
Qed.

(** C7.  The variadic form [after(h1, h2)] and the tuple form
    [after(tuple(h1, h2))] return the same policy, with the same ordered
    dependency list. *)
Theorem after_variadic_tuple_equivalent w this e h1 h2 :
  objects w !! this = Some (ObjEwa e) ->
  exists l w',
    after this [h1; h2] w = Some (l, w') /\
    after_tuple this [h1; h2] w = Some (l, w') /\
    objects w' !! l =
      Some (ObjEwad (ExecuteWithAllocatorAndDependencies
                       default_super (alloc e) [capture h1; capture h2])).
Proof.
  intros H. exists (next_loc w), (after_result w e [h1; h2]).
  split; [now apply after_run|]. split; [now apply after_tuple_run|].
  apply after_result_lookup.
Qed.

(** C8.  The decorator constructed from [(P, A)] holds [A]; [get_allocator]
    returns a reference to that member and leaves the world as it was, so
    no allocator is copied; reading through the reference gives [A], and
    assigning through it changes the allocator held by the decorator. *)
Theorem get_allocator_embedded w p b a :
  source_super w p = Some b ->
  exists d w1,
    construct_from p a w = Some (d, w1) /\
    objects w1 !! d = Some (ObjEwa (ExecuteWithAllocator b a)) /\
    get_allocator d w1 = Some (AllocOf d, w1) /\
    read_ref (AllocOf d) w1 = Some (a, w1) /\
    forall a', exists w2,
      assign_ref (AllocOf d) a' w1 = Some (tt, w2) /\
      objects w2 !! d = Some (ObjEwa (ExecuteWithAllocator b a')) /\
      read_ref (AllocOf d) w2 = Some (a', w2).
Proof.
  intros Hp.
  set (e := ExecuteWithAllocator b a).
  set (w1 := World (<[next_loc w := ObjEwa e]> (objects w)) (captured w)).
  assert (objects w1 !! next_loc w = Some (ObjEwa e)) as Hd
    by apply lookup_insert_eq.
  exists (next_loc w), w1.
  split; [now apply construct_from_run|]. split; [exact Hd|].
  split; [|split].
  - unfold get_allocator, mbind, M_bind.
    now rewrite (get_this_Some w1 _ e Hd).
  - unfold read_ref, mbind, M_bind. now rewrite (get_this_Some w1 _ e Hd).
  - intros a'.
    set (w2 := World (<[next_loc w := ObjEwa (ExecuteWithAllocator b a')]>
                        (objects w1)) (captured w1)).
    assert (objects w2 !! next_loc w = Some (ObjEwa (ExecuteWithAllocator b a')))
      as Hd2 by apply lookup_insert_eq.
    exists w2. split; [|split; [exact Hd2|]].
    + unfold assign_ref, mbind, M_bind.
      now rewrite (get_this_Some w1 _ e Hd).
    + unfold read_ref, mbind, M_bind.
      now rewrite (get_this_Some w2 _ _ Hd2).
Qed.

(** C9.  Constructing a decorated policy leaves every object that was there
    as it was: the new policy is placed at a location that was not in use.
    This holds for the allocator decoration of every source [p], a bare base
    policy or a decorator, and for the dependency decoration ([after],
    [rebind_after]) of every decorator [this]; and a source can be decorated
    again, the two results being separate objects that each hold their own
    allocator. *)
Theorem decoration_is_pure w :
  (forall p b, source_super w p = Some b ->
   forall a, exists d w',
     construct_from p a w = Some (d, w') /\
     objects w !! d = None /\ preserved w w' /\
     source_super w' p = Some b) /\
  (forall this e, objects w !! this = Some (ObjEwa e) ->
   forall deps, exists l w',
     after this deps w = Some (l, w') /\
     rebind_after this deps w = Some (l, w') /\
     objects w !! l = None /\ preserved w w' /\
     objects w' !! this = Some (ObjEwa e)) /\
  (forall p b, source_super w p = Some b ->
   forall a1 a2, exists d1 d2 w',
     (d1 ← construct_from p a1; d2 ← construct_from p a2; mret (d1, d2)) w
       = Some ((d1, d2), w') /\
     d1 <> d2 /\ preserved w w' /\
     objects w' !! d1 = Some (ObjEwa (ExecuteWithAllocator b a1)) /\
     objects w' !! d2 = Some (ObjEwa (ExecuteWithAllocator b a2)) /\
     source_super w' p = Some b).
Proof.
  split; [|split].
  - intros p b Hp a.
    exists (next_loc w),
      (World (<[next_loc w := ObjEwa (ExecuteWithAllocator b a)]> (objects w))
             (captured w)).
    split; [now apply construct_from_run|].
    split; [apply next_loc_unused|].
    split; [apply preserved_insert_next|].
    eapply source_super_preserved; [apply preserved_insert_next|exact Hp].
  - intros this e Hthis deps. exists (next_loc w), (after_result w e deps).
    split; [now apply after_run|]. split; [now apply rebind_after_run|].
    split; [apply next_loc_unused|].
    split; [apply after_result_preserved|].
    eapply preserved_lookup; [apply after_result_preserved|exact Hthis].
  - intros p b Hp a1 a2.
    set (w1 := World (<[next_loc w := ObjEwa (ExecuteWithAllocator b a1)]>
                        (objects w)) (captured w)).
    set (w2 := World (<[next_loc w1 := ObjEwa (ExecuteWithAllocator b a2)]>
                        (objects w1)) (captured w1)).
    assert (preserved w w1) as H01 by apply preserved_insert_next.
    assert (preserved w1 w2) as H12 by apply preserved_insert_next.
    assert (source_super w1 p = Some b) as Hp1
      by (eapply source_super_preserved; eauto).
    assert (objects w1 !! next_loc w = Some (ObjEwa (ExecuteWithAllocator b a1)))
      as Hd1 by apply lookup_insert_eq.
    exists (next_loc w), (next_loc w1), w2.
    split; [|split; [|split; [|split; [|split]]]].
    + unfold mbind at 1. unfold M_bind at 1.
      rewrite (construct_from_run w p b a1 Hp). fold w1.
      unfold mbind, M_bind. rewrite (construct_from_run w1 p b a2 Hp1).
      reflexivity.
    + intros E. pose proof (next_loc_unused w1) as Hn.
      rewrite <- E in Hn. congruence.
    + unfold preserved in *. etrans; eauto.
    + eapply preserved_lookup; eauto.
    + apply lookup_insert_eq.
    + eapply source_super_preserved; eauto.
Qed.

(** *** Further properties of the decorator *)

Lemma bind_run {A B} (m : ExecutePolicy.M A) (f : A -> ExecutePolicy.M B) w x w1 :
  m w = Some (x, w1) -> (m ≫= f) w = f x w1.
Proof. intros H. unfold mbind, M_bind. now rewrite H. Qed.

Lemma get_allocator_run w d e :
  objects w !! d = Some (ObjEwa e) -> get_allocator d w = Some (AllocOf d, w).
Proof.
  intros H. unfold get_allocator. now rewrite (bind_run _ _ w e w (get_this_Some w d e H)).
Qed.

Lemma read_ref_run w d e :
  objects w !! d = Some (ObjEwa e) -> read_ref (AllocOf d) w = Some (alloc e, w).
Proof.
  intros H. unfold read_ref. now rewrite (bind_run _ _ w e w (get_this_Some w d e H)).
Qed.

Lemma assign_ref_run w d e a :
  objects w !! d = Some (ObjEwa e) ->
  assign_ref (AllocOf d) a w = Some (tt, assigned w d e a).
Proof.
  intros H. unfold assign_ref. now rewrite (bind_run _ _ w e w (get_this_Some w d e H)).
Qed.

Lemma assigned_lookup w d e a :
  objects (assigned w d e a) !! d = Some (ObjEwa (ExecuteWithAllocator (super e) a)).
Proof. apply lookup_insert_eq. Qed.

(** X10.  The constructor from an allocator alone: the decorator is a new
    object with a default-constructed base that holds [A]; every object that
    was there is as it was, and reading through [get_allocator] gives [A]. *)
Theorem construct_alloc_only w a :
  exists d w1,
    construct default_super a w = Some (d, w1) /\
    objects w !! d = None /\ preserved w w1 /\
    objects w1 !! d = Some (ObjEwa (ExecuteWithAllocator default_super a)) /\
    (r ← get_allocator d; read_ref r) w1 = Some (a, w1).
Proof.
  set (e := ExecuteWithAllocator default_super a).
  set (w1 := World (<[next_loc w := ObjEwa e]> (objects w)) (captured w)).
  assert (objects w1 !! next_loc w = Some (ObjEwa e)) as Hd
    by apply lookup_insert_eq.
  exists (next_loc w), w1. split; [reflexivity|].
  split; [apply next_loc_unused|]. split; [apply preserved_insert_next|].
  split; [exact Hd|].
  rewrite (bind_run _ _ _ _ _ (get_allocator_run w1 _ e Hd)).
  apply (read_ref_run w1 _ e Hd).
Qed.

(** X11.  [after] with any number of dependencies: the policy returned holds
    the allocator of the decorator and one handle per dependency, in the
    order given, and [capture_as_dependency] is called on each dependency
    once, in that order; with no dependency the list is empty and nothing is
    captured.  [rebind_after] does the same. *)
Theorem after_any_dependencies w this e deps :
  objects w !! this = Some (ObjEwa e) ->
  (exists l w',
     after this deps w = Some (l, w') /\
     rebind_after this deps w = Some (l, w') /\
     objects w' !! l =
       Some (ObjEwad (ExecuteWithAllocatorAndDependencies
                        default_super (alloc e) (capture <$> deps))) /\
     captured w' = captured w ++ deps) /\
  (exists l w',
     after this [] w = Some (l, w') /\
     objects w' !! l =
       Some (ObjEwad (ExecuteWithAllocatorAndDependencies
                        default_super (alloc e) [])) /\
     captured w' = captured w).
Proof.
  intros H. split.
  - exists (next_loc w), (after_result w e deps).
    split; [now apply after_run|]. split; [now apply rebind_after_run|].
    split; [apply after_result_lookup|reflexivity].
  - exists (next_loc w), (after_result w e []).
    split; [now apply after_run|]. split; [apply after_result_lookup|].
    cbn. apply app_nil_r.
Qed.

(** X12.  [after] reads the allocator the decorator holds when it is
    called: after an assignment of [a'] through the reference returned by
    [get_allocator], the policy returned by [after] holds [a']. *)
Theorem assign_then_after w d e (a' : Allocator) deps :
  objects w !! d = Some (ObjEwa e) ->
  exists l w',
    (r ← get_allocator d; _ ← assign_ref r a'; after d deps) w = Some (l, w') /\
    objects w' !! l =
      Some (ObjEwad (ExecuteWithAllocatorAndDependencies
                       default_super a' (capture <$> deps))) /\
    objects w' !! d = Some (ObjEwa (ExecuteWithAllocator (super e) a')).
Proof.
  intros H.
  set (e' := ExecuteWithAllocator (super e) a').
  pose proof (assigned_lookup w d e a') as Hd. fold e' in Hd.
  exists (next_loc (assigned w d e a')), (after_result (assigned w d e a') e' deps).
  split; [|split].
  - rewrite (bind_run _ _ _ _ _ (get_allocator_run w d e H)).
    rewrite (bind_run _ _ _ _ _ (assign_ref_run w d e a' H)).
    now apply after_run.
  - apply after_result_lookup.
  - eapply preserved_lookup; [apply after_result_preserved|exact Hd].
Qed.

(** X14.  Dependencies do not accumulate in the decorator: two calls of
    [after] on the same decorator return two separate policies, the first
    with the handles of the first call only, the second with those of the
    second call only; the decorator is as it was and the captures were made
    in call order. *)
Theorem after_twice w d e deps deps' :
  objects w !! d = Some (ObjEwa e) ->
  exists l l' w',
    (l ← after d deps; l' ← after d deps'; mret (l, l')) w
      = Some ((l, l'), w') /\
    l <> l' /\
    objects w' !! l =
      Some (ObjEwad (ExecuteWithAllocatorAndDependencies
                       default_super (alloc e) (capture <$> deps))) /\
    objects w' !! l' =
      Some (ObjEwad (ExecuteWithAllocatorAndDependencies
                       default_super (alloc e) (capture <$> deps'))) /\
    objects w' !! d = Some (ObjEwa e) /\
    captured w' = captured w ++ deps ++ deps'.
Proof.
  intros H.
  set (w1 := after_result w e deps).
  assert (preserved w w1) as H01 by apply after_result_preserved.
  assert (objects w1 !! d = Some (ObjEwa e)) as Hd
    by (eapply preserved_lookup; eauto).
  assert (preserved w1 (after_result w1 e deps')) as H12
    by apply after_result_preserved.
  pose proof (after_result_lookup w e deps) as Hl. fold w1 in Hl.
  exists (next_loc w), (next_loc w1), (after_result w1 e deps').
  split; [|split; [|split; [|split; [|split]]]].
  - rewrite (bind_run _ _ _ _ _ (after_run w d e deps H)). fold w1.
    rewrite (bind_run _ _ _ _ _ (after_run w1 d e deps' Hd)). reflexivity.
  - intros E. pose proof (next_loc_unused w1) as Hn. rewrite <- E in Hn.
    congruence.
  - eapply preserved_lookup; eauto.
  - apply after_result_lookup.
  - eapply preserved_lookup; eauto.
  - cbn. now rewrite app_assoc.
Qed.

End Facts.

Lemma after_rebind_after_equivalent_witness :
  exists l w',
    after tt S 2%positive [10; 20] example_world = Some (l, w') /\
    rebind_after tt S 2%positive [10; 20] example_world = Some (l, w') /\
    after_tuple tt S 2%positive [10; 20] example_world
      = rebind_after_tuple tt S 2%positive [10; 20] example_world /\
    objects w' !! l =
      Some (ObjEwad (ExecuteWithAllocatorAndDependencies
                       tt (alloc example_decorator) (S <$> [10; 20]))).
Proof.
  apply (after_rebind_after_equivalent tt S example_world 2%positive
           example_decorator [10; 20]).
  reflexivity.
Defined.

Lemma after_decorated_witness :
  exists d l w',
    (d ← construct_from 1%positive 7; l ← after tt S d [10; 20]; mret (d, l))
      example_world = Some ((d, l), w') /\
    objects w' !! l =
      Some (ObjEwad (ExecuteWithAllocatorAndDependencies tt 7 [S 10; S 20])) /\
    captured w' = captured example_world ++ [10; 20].
Proof.
  apply (after_decorated tt S example_world 1%positive tt 7 10 20).
  reflexivity.
Defined.

Lemma after_variadic_tuple_equivalent_witness :
  exists l w',
    after tt S 2%positive [10; 20] example_world = Some (l, w') /\
    after_tuple tt S 2%positive [10; 20] example_world = Some (l, w') /\
    objects w' !! l =
      Some (ObjEwad (ExecuteWithAllocatorAndDependencies
                       tt (alloc example_decorator) [S 10; S 20])).
Proof.
  apply (after_variadic_tuple_equivalent tt S example_world 2%positive
           example_decorator 10 20).
  reflexivity.
Defined.

Lemma get_allocator_embedded_witness :
  exists d w1,
    construct_from 1%positive 7 example_world = Some (d, w1) /\
    objects w1 !! d = Some (ObjEwa (ExecuteWithAllocator tt 7)) /\
    get_allocator d w1 = Some (AllocOf d, w1) /\
    read_ref (AllocOf d) w1 = Some (7, w1) /\
    forall a', exists w2,
      assign_ref (AllocOf d) a' w1 = Some (tt, w2) /\
      objects w2 !! d = Some (ObjEwa (ExecuteWithAllocator tt a')) /\
      read_ref (AllocOf d) w2 = Some (a', w2).
Proof.
  apply (get_allocator_embedded (Dependency := nat) (Handle := nat)
           example_world 1%positive tt 7).
  reflexivity.
Defined.

Lemma decoration_is_pure_witness :
  (forall a, exists d w',
     construct_from 1%positive a base_policy_world = Some (d, w') /\
     objects base_policy_world !! d = None /\
     preserved base_policy_world w' /\
     source_super w' 1%positive = Some tt) /\
  (forall deps, exists l w',
     after tt S 2%positive deps example_world = Some (l, w') /\
     rebind_after tt S 2%positive deps example_world = Some (l, w') /\
     objects example_world !! l = None /\ preserved example_world w' /\
     objects w' !! 2%positive = Some (ObjEwa example_decorator)) /\
  (forall a1 a2, exists d1 d2 w',
     (d1 ← construct_from 1%positive a1; d2 ← construct_from 1%positive a2;
      mret (d1, d2)) base_policy_world = Some ((d1, d2), w') /\
     d1 <> d2 /\ preserved base_policy_world w' /\
     objects w' !! d1 = Some (ObjEwa (ExecuteWithAllocator tt a1)) /\
     objects w' !! d2 = Some (ObjEwa (ExecuteWithAllocator tt a2)) /\
     source_super w' 1%positive = Some tt).
Proof.
  split; [|split].
  - apply (proj1 (decoration_is_pure tt S base_policy_world) 1%positive tt).
    reflexivity.
  - apply (proj1 (proj2 (decoration_is_pure tt S example_world))
             2%positive example_decorator).
    reflexivity.
  - apply (proj2 (proj2 (decoration_is_pure tt S base_policy_world))
             1%positive tt).
    reflexivity.
Defined.

Lemma after_any_dependencies_witness :
  (exists l w',
     after tt S 2%positive [10; 20; 30] example_world = Some (l, w') /\
     rebind_after tt S 2%positive [10; 20; 30] example_world = Some (l, w') /\
     objects w' !! l =
       Some (ObjEwad (ExecuteWithAllocatorAndDependencies
                        tt (alloc example_decorator) (S <$> [10; 20; 30]))) /\
     captured w' = captured example_world ++ [10; 20; 30]) /\
  (exists l w',
     after tt S 2%positive [] example_world = Some (l, w') /\
     objects w' !! l =
       Some (ObjEwad (ExecuteWithAllocatorAndDependencies
                        tt (alloc example_decorator) [])) /\
     captured w' = captured example_world).
Proof.
  apply (after_any_dependencies tt S example_world 2%positive
           example_decorator [10; 20; 30]).
  reflexivity.
Defined.

Lemma assign_then_after_witness :
  exists l w',
    (r ← get_allocator 2%positive; _ ← assign_ref r 9;
     after tt S 2%positive [10; 20]) example_world = Some (l, w') /\
    objects w' !! l =
      Some (ObjEwad (ExecuteWithAllocatorAndDependencies tt 9 (S <$> [10; 20]))) /\
    objects w' !! 2%positive =
      Some (ObjEwa (ExecuteWithAllocator (super example_decorator) 9)).
Proof.
  apply (assign_then_after tt S example_world 2%positive example_decorator
           9 [10; 20]).
  reflexivity.
Defined.

Lemma after_twice_witness :
  exists l l' w',
    (l ← after tt S 2%positive [10]; l' ← after tt S 2%positive [20; 30];
     mret (l, l')) example_world = Some ((l, l'), w') /\
    l <> l' /\
    objects w' !! l =
      Some (ObjEwad (ExecuteWithAllocatorAndDependencies
                       tt (alloc example_decorator) (S <$> [10]))) /\
    objects w' !! l' =
      Some (ObjEwad (ExecuteWithAllocatorAndDependencies
                       tt (alloc example_decorator) (S <$> [20; 30]))) /\
    objects w' !! 2%positive = Some (ObjEwa example_decorator) /\
    captured w' = captured example_world ++ [10] ++ [20; 30].
Proof.
  apply (after_twice tt S example_world 2%positive example_decorator
           [10] [20; 30]).
  reflexivity.
Defined.

End ExecutePolicyFacts.
